(** * tauri-plugin-window: the window handle of [dist-js/index.mjs]

    A shallow embedding of the JavaScript module: the geometry classes, the
    per-instance table of local listeners, the local event dispatch, the
    creation bootstrap, the close negotiation and the validating setter
    [setSize].

    JavaScript numbers are IEEE 754 binary64 values, hence [float].  Function
    references (event handlers) are compared by identity in the source
    ([Array.prototype.indexOf]); they are modelled by a name, and what a
    handler does when it is called is given by an environment [code]. *)

From Stdlib Require Import ZArith Floats.
From stdpp Require Import base gmap list strings.

Local Open Scope string_scope.
Local Open Scope list_scope.
Local Open Scope nat_scope.
Local Open Scope stdpp_scope.
Set Warnings "-register-all".

(** ** JavaScript values *)

Inductive JsVal :=
| JsUndefined
| JsNull
| JsBool (b : bool)
| JsNum (x : float)
| JsStr (s : string)
| JsError (message : string)
| JsObj (fields : list (string * JsVal)).

(** [o.k]: the value of property [k], [undefined] when it is absent or when
    [o] is a primitive without that property. *)
Fixpoint assoc (k : string) (fields : list (string * JsVal)) : JsVal :=
  match fields with
  | [] => JsUndefined
  | (k', v) :: rest => if String.eqb k k' then v else assoc k rest
  end.

Definition get (k : string) (o : JsVal) : JsVal :=
  match o with
  | JsObj fields => assoc k fields
  | _ => JsUndefined
  end.

(** [ToBoolean]. *)
Definition truthy (v : JsVal) : bool :=
  match v with
  | JsUndefined | JsNull => false
  | JsBool b => b
  | JsNum x => negb (PrimFloat.eqb x 0%float || PrimFloat.is_nan x)
  | JsStr s => negb (String.eqb s "")
  | JsError _ | JsObj _ => true
  end.

(** [v === "s"] for a string literal [s]. *)
Definition is_string (s : string) (v : JsVal) : bool :=
  match v with
  | JsStr s' => String.eqb s' s
  | _ => false
  end.

(** ** Geometry classes *)

Module Geometry.

Record LogicalSize := { ls_type : string; ls_width : float; ls_height : float }.
Record PhysicalSize := { ps_type : string; ps_width : float; ps_height : float }.
Record LogicalPosition := { lp_type : string; lp_x : float; lp_y : float }.
Record PhysicalPosition := { pp_type : string; pp_x : float; pp_y : float }.

(** The four constructors. *)
Definition new_LogicalSize (width height : float) : LogicalSize :=
  {| ls_type := "Logical"; ls_width := width; ls_height := height |}.

Definition new_PhysicalSize (width height : float) : PhysicalSize :=
  {| ps_type := "Physical"; ps_width := width; ps_height := height |}.

Definition new_LogicalPosition (x y : float) : LogicalPosition :=
  {| lp_type := "Logical"; lp_x := x; lp_y := y |}.

Definition new_PhysicalPosition (x y : float) : PhysicalPosition :=
  {| pp_type := "Physical"; pp_x := x; pp_y := y |}.

(** [PhysicalSize.prototype.toLogical]. *)
Definition size_toLogical (this : PhysicalSize) (scaleFactor : float) : LogicalSize :=
  new_LogicalSize (ps_width this / scaleFactor) (ps_height this / scaleFactor).

(** [PhysicalPosition.prototype.toLogical]. *)
Definition position_toLogical (this : PhysicalPosition) (scaleFactor : float)
  : LogicalPosition :=
  new_LogicalPosition (pp_x this / scaleFactor) (pp_y this / scaleFactor).

End Geometry.

(** ** Array built-ins used by the listener table *)

Definition Handler := nat.

Module JsArray.

(** [indexOf]: the first index holding [h], [-1] when there is none. *)
Fixpoint indexOf (l : list Handler) (h : Handler) : Z :=
  match l with
  | [] => (-1)%Z
  | x :: rest =>
      if decide (x = h) then 0%Z
      else let i := indexOf rest h in
           if (i <? 0)%Z then (-1)%Z else (i + 1)%Z
  end.

(** [splice(start, deleteCount)] without inserted items: a negative [start]
    counts from the end, and both arguments are clamped to the array. *)
Definition splice (l : list Handler) (start deleteCount : Z) : list Handler :=
  let len := Z.of_nat (length l) in
  let actualStart :=
    if (start <? 0)%Z then Z.max (len + start) 0 else Z.min start len in
  let actualDeleteCount := Z.min (Z.max deleteCount 0) (len - actualStart) in
  take (Z.to_nat actualStart) l
    ++ drop (Z.to_nat (actualStart + actualDeleteCount)) l.

(** [push]. *)
Definition push (l : list Handler) (h : Handler) : list Handler := l ++ [h].

End JsArray.

(** ** The world the module runs in *)

(** The event object a local handler receives. *)
Record Envelope := {
  env_event : string;
  env_id : Z;
  env_windowLabel : string;
  env_payload : JsVal;
}.

(** A [Window] instance: its two fields. *)
Record WindowObj := {
  label : string;
  listeners : gmap string (list Handler);
}.

Definition Ref := nat.

(** One call of [window.__TAURI_INVOKE__]. *)
Record Command := { cmd : string; args : JsVal }.

(** One call into [@tauri-apps/api/event], the remote event subsystem. *)
Inductive EventApiCall :=
| ApiListen (event : string) (handler : Handler) (target : string)
| ApiOnce (event : string) (handler : Handler) (target : string)
| ApiEmit (event : string) (payload : JsVal) (target : string)
| ApiUnlisten (event : string) (handler : Handler) (target : string).

(** The heap of [Window] objects, and the calls made so far to the host and
    to the remote event subsystem, oldest first. *)
Record World := {
  windows : gmap Ref WindowObj;
  host : list Command;
  eventApi : list EventApiCall;
}.

Definition empty_world : World :=
  {| windows := ∅; host := []; eventApi := [] |}.

Definition set_window (w : Ref) (o : WindowObj) (σ : World) : World :=
  {| windows := <[w := o]> (windows σ); host := host σ; eventApi := eventApi σ |}.

(** [window.__TAURI_INVOKE__(cmd, args)]: the request leaves for the host. *)
Definition invoke (c : string) (a : JsVal) (σ : World) : World :=
  {| windows := windows σ; host := host σ ++ [{| cmd := c; args := a |}];
     eventApi := eventApi σ |}.

Definition api_call (c : EventApiCall) (σ : World) : World :=
  {| windows := windows σ; host := host σ; eventApi := eventApi σ ++ [c] |}.

(** The handlers of window [w] for [event]; [this.listeners[event] || []]. *)
Definition handlers_at (σ : World) (w : Ref) (event : string) : list Handler :=
  match windows σ !! w with
  | Some this => default [] (listeners this !! event)
  | None => []
  end.

(** The state of a promise. *)
Inductive Promise :=
| Fulfilled (v : JsVal)
| Rejected (e : JsVal)
| Pending.

(** How a call of a client function ends, and the world it leaves. *)
Inductive Completion :=
| Normal (σ : World)
| Throw (e : JsVal) (σ : World).

Definition world_of (c : Completion) : World :=
  match c with Normal σ | Throw _ σ => σ end.

(** ** The [Window] class: local listeners *)

Definition localTauriEvents : list string := ["tauri://created"; "tauri://error"].

(** [Array.prototype.includes] on an array of strings. *)
Definition includes (l : list string) (s : string) : bool :=
  existsb (String.eqb s) l.

(** [Window.prototype._handleTauriEvent]. *)
Definition _handleTauriEvent (w : Ref) (event : string) (handler : Handler)
    (σ : World) : option (bool * World) :=
  this ← windows σ !! w;
  if includes localTauriEvents event then
    let l := match listeners this !! event with
             | None => [handler]
             | Some l => JsArray.push l handler
             end in
    Some (true, set_window w {| label := label this;
                                listeners := <[event := l]> (listeners this) |} σ)
  else Some (false, σ).

(** The function [listen] and [once] resolve to: the closure of the local
    path, which captures [this], [event] and [handler], or the function the
    remote event subsystem returned. *)
Inductive UnlistenFn :=
| LocalUnlisten (w : Ref) (event : string) (handler : Handler)
| RemoteUnlisten (event : string) (handler : Handler) (target : string).

(** [Window.prototype.listen]. *)
Definition listen (w : Ref) (event : string) (handler : Handler) (σ : World)
    : option (UnlistenFn * World) :=
  '(isLocal, σ1) ← _handleTauriEvent w event handler σ;
  if isLocal : bool then Some (LocalUnlisten w event handler, σ1)
  else
    this ← windows σ1 !! w;
    Some (RemoteUnlisten event handler (label this),
          api_call (ApiListen event handler (label this)) σ1).

(** [Window.prototype.once]. *)
Definition once (w : Ref) (event : string) (handler : Handler) (σ : World)
    : option (UnlistenFn * World) :=
  '(isLocal, σ1) ← _handleTauriEvent w event handler σ;
  if isLocal : bool then Some (LocalUnlisten w event handler, σ1)
  else
    this ← windows σ1 !! w;
    Some (RemoteUnlisten event handler (label this),
          api_call (ApiOnce event handler (label this)) σ1).

(** Calling an unlisten function.  The local closure reads
    [this.listeners[event]] and splices the array in place; a missing entry
    would make [listeners.indexOf] a [TypeError]. *)
Definition unlisten (u : UnlistenFn) (σ : World) : option Completion :=
  match u with
  | LocalUnlisten w event handler =>
      this ← windows σ !! w;
      match listeners this !! event with
      | None => Some (Throw (JsError "TypeError") σ)
      | Some l =>
          let l' := JsArray.splice l (JsArray.indexOf l handler) 1 in
          Some (Normal (set_window w {| label := label this;
                                        listeners := <[event := l']> (listeners this) |} σ))
      end
  | RemoteUnlisten event handler target =>
      Some (Normal (api_call (ApiUnlisten event handler target) σ))
  end.

(** ** Local dispatch *)

(** One call of a handler made by [emit]. *)
Record Invocation := {
  inv_handler : Handler;
  inv_envelope : Envelope;
  inv_threw : option JsVal;
}.

(** What a call of [emit] did: the state of the promise it returns, the
    handlers it called, in order, and the world afterwards. *)
Record EmitRun := {
  settled : Promise;
  invoked : list Invocation;
  final : World;
}.

Section Dispatch.

(** What each client function does when it is called with an event. *)
Variable code : Handler → Envelope → World → Completion.

(** The [for ... of] loop of [emit] from index [i] on.  The array iterator
    keeps an index into the array itself and compares it with the current
    length before each step, so the loop sees what the handlers it calls do
    to the array.  The source never replaces or deletes the array of an event
    once it exists, so the array is found again under [this.listeners[event]].
    A handler may add a handler on every call; [fuel] bounds the number of
    calls. *)
Fixpoint dispatch (fuel : nat) (w : Ref) (ev : string) (p : JsVal) (i : nat)
    (σ : World) : option EmitRun :=
  this ← windows σ !! w;
  match default [] (listeners this !! ev) !! i with
  | None => Some {| settled := Fulfilled JsUndefined; invoked := []; final := σ |}
  | Some handler =>
      match fuel with
      | 0 => None
      | S fuel' =>
          let envelope := {| env_event := ev; env_id := -1;
                             env_windowLabel := label this; env_payload := p |} in
          match code handler envelope σ with
          | Throw e σ' =>
              Some {| settled := Rejected e;
                      invoked := [{| inv_handler := handler; inv_envelope := envelope;
                                     inv_threw := Some e |}];
                      final := σ' |}
          | Normal σ' =>
              r ← dispatch fuel' w ev p (S i) σ';
              Some {| settled := settled r;
                      invoked := {| inv_handler := handler; inv_envelope := envelope;
                                    inv_threw := None |} :: invoked r;
                      final := final r |}
          end
      end
  end.

(** [Window.prototype.emit].  An [async] function: an exception of the body
    is the rejection of the promise it returns. *)
Definition emit (fuel : nat) (w : Ref) (ev : string) (p : JsVal) (σ : World)
    : option EmitRun :=
  if includes localTauriEvents ev then dispatch fuel w ev p 0 σ
  else
    this ← windows σ !! w;
    Some {| settled := Pending; invoked := [];
            final := api_call (ApiEmit ev p (label this)) σ |}.

End Dispatch.

(** ** The constructor and the creation bootstrap *)

(** [{...options, label}]: the property is replaced where the spread already
    put one, and added at the end otherwise. *)
Fixpoint set_field (k : string) (v : JsVal) (fields : list (string * JsVal))
    : list (string * JsVal) :=
  match fields with
  | [] => [(k, v)]
  | (k', v') :: rest =>
      if String.eqb k k' then (k', v) :: rest else (k', v') :: set_field k v rest
  end.

(** [new Window(label, options)], [options] being the properties of the
    options object ([{}] by default).  The new object gets its own, empty
    table; unless [options.skip] is set the creation command leaves for the
    host, and [creation_settled] below is what was chained on its promise. *)
Definition new_Window (lbl : string) (options : list (string * JsVal)) (σ : World)
    : Ref * World :=
  let this := fresh (dom (windows σ)) in
  let σ1 := set_window this {| label := lbl; listeners := ∅ |} σ in
  if truthy (assoc "skip" options) then (this, σ1)
  else (this, invoke "plugin:window|create"
                (JsObj [("options", JsObj (set_field "label" (JsStr lbl) options))]) σ1).

(** One local event fired by the bootstrap: a call of [this.emit]. *)
Record Fired := {
  fired_event : string;
  fired_payload : JsVal;
  fired_invoked : list Invocation;
}.

Section Bootstrap.

Variable code : Handler → Envelope → World → Completion.

(** [p.then(async () => this.emit("tauri://created"))]: the promise of the
    step, the events it fired and the world.  A promise that is not fulfilled
    passes through. *)
Definition then_created (fuel : nat) (w : Ref) (p : Promise) (σ : World)
    : option (Promise * list Fired * World) :=
  match p with
  | Fulfilled _ =>
      r ← emit code fuel w "tauri://created" JsUndefined σ;
      Some (settled r,
            [{| fired_event := "tauri://created"; fired_payload := JsUndefined;
                fired_invoked := invoked r |}],
            final r)
  | _ => Some (p, [], σ)
  end.

(** [p.catch(async (e) => this.emit("tauri://error", e))]. *)
Definition catch_error (fuel : nat) (w : Ref) (p : Promise) (σ : World)
    : option (Promise * list Fired * World) :=
  match p with
  | Rejected e =>
      r ← emit code fuel w "tauri://error" e σ;
      Some (settled r,
            [{| fired_event := "tauri://error"; fired_payload := e;
                fired_invoked := invoked r |}],
            final r)
  | _ => Some (p, [], σ)
  end.

(** The chain [invoke(...).then(...).catch(...)] of the constructor, run when
    the creation command settles with [outcome]. *)
Definition creation_settled (fuel : nat) (w : Ref) (outcome : Promise) (σ : World)
    : option (Promise * list Fired * World) :=
  '(p1, fired1, σ1) ← then_created fuel w outcome σ;
  '(p2, fired2, σ2) ← catch_error fuel w p1 σ1;
  Some (p2, fired1 ++ fired2, σ2).

End Bootstrap.

(** ** Close negotiation *)

Module Close.

Record CloseRequestedEvent := {
  _preventDefault : bool;
  event : string;
  windowLabel : string;
  id : Z;
}.

(** The constructor, from the event received. *)
Definition new_CloseRequestedEvent (e : Envelope) : CloseRequestedEvent :=
  {| _preventDefault := false; event := env_event e;
     windowLabel := env_windowLabel e; id := env_id e |}.

Definition preventDefault (this : CloseRequestedEvent) : CloseRequestedEvent :=
  {| _preventDefault := true; event := event this;
     windowLabel := windowLabel this; id := id this |}.

Definition isPreventDefault (this : CloseRequestedEvent) : bool :=
  _preventDefault this.

(** What a client handler does with the event object it is given, up to the
    moment its outcome is known. *)
Inductive EventCall := CallPreventDefault | CallIsPreventDefault.

#[global] Instance EventCall_eq_dec : EqDecision EventCall.
Proof. solve_decision. Defined.

(** How the handler's outcome settles: it returns a value or a promise that
    is fulfilled, it returns a promise that is rejected, it returns a promise
    that never settles, or it throws. *)
Inductive HandlerOutcome :=
| Returns
| ReturnsRejected (e : JsVal)
| ReturnsPending
| Throws (e : JsVal).

Record HandlerRun := {
  calls : list EventCall;
  outcome : HandlerOutcome;
}.

Definition do_call (evt : CloseRequestedEvent) (c : EventCall) : CloseRequestedEvent :=
  match c with
  | CallPreventDefault => preventDefault evt
  | CallIsPreventDefault => evt
  end.

(** [Window.prototype.close]. *)
Definition close (w : Ref) (σ : World) : option World :=
  this ← windows σ !! w;
  Some (invoke "plugin:window|close" (JsObj [("label", JsStr (label this))]) σ).

(** The callback [onCloseRequested] registers, run on one delivery until
    [Promise.resolve(handler(evt)).then(...)] has settled: the callback of
    [then] runs only when the handler's outcome is fulfilled, and reads the
    flag at that moment. *)
Definition deliver (w : Ref) (handler : CloseRequestedEvent → HandlerRun)
    (e : Envelope) (σ : World) : option Completion :=
  let evt := new_CloseRequestedEvent e in
  let run := handler evt in
  let evt' := foldl do_call evt (calls run) in
  match outcome run with
  | Throws err => Some (Throw err σ)
  | ReturnsRejected _ | ReturnsPending => Some (Normal σ)
  | Returns =>
      if negb (isPreventDefault evt') then σ' ← close w σ; Some (Normal σ')
      else Some (Normal σ)
  end.

(** [Window.prototype.onCloseRequested]: the callback, named [callback] and
    run by [deliver], is registered with [listen].  The event name is the
    constant [TauriEvent.WINDOW_CLOSE_REQUESTED] of [@tauri-apps/api/event]. *)
Definition onCloseRequested (WINDOW_CLOSE_REQUESTED : string) (w : Ref)
    (callback : Handler) (σ : World) : option (UnlistenFn * World) :=
  listen w WINDOW_CLOSE_REQUESTED callback σ.

(** The [close] commands among the calls made to the host. *)
Definition close_commands (σ : World) : list Command :=
  filter (λ c, cmd c = "plugin:window|close") (host σ).

End Close.

(** ** A validating setter *)

Definition setSize_message : string :=
  "the `size` argument must be either a LogicalSize or a PhysicalSize instance".

(** [Window.prototype.setSize].  An [async] function: the [throw] is the
    rejection of the promise it returns, decided before anything is sent. *)
Definition setSize (w : Ref) (size : JsVal) (σ : World) : option (Promise * World) :=
  this ← windows σ !! w;
  if negb (truthy size)
     || (negb (is_string "Logical" (get "type" size))
         && negb (is_string "Physical" (get "type" size)))
  then Some (Rejected (JsError setSize_message), σ)
  else
    Some (Pending,
          invoke "plugin:window|set_size"
            (JsObj [("label", JsStr (label this));
                    ("value", JsObj [("type", get "type" size);
                                     ("data", JsObj [("width", get "width" size);
                                                     ("height", get "height" size)])])])
            σ).

(** ** Vocabulary of the statements *)

(** The label of window [w], when there is such an object. *)
Definition label_at (σ : World) (w : Ref) : option string :=
  label <$> windows σ !! w.

(** The table of listeners of window [w]. *)
Definition table (σ : World) (w : Ref) : option (gmap string (list Handler)) :=
  listeners <$> windows σ !! w.

(** Whenever it is called, function [h] returns normally and leaves the list
    of [ev] on window [w], and the label of [w], as they were. *)
Definition leaves_list (code : Handler → Envelope → World → Completion)
    (w : Ref) (ev : string) (h : Handler) : Prop :=
  ∀ (env : Envelope) (σ : World),
    ∃ σ', code h env σ = Normal σ'
          ∧ handlers_at σ' w ev = handlers_at σ w ev
          ∧ label_at σ' w = label_at σ w.

(** A dispatch of [ev] on window [w] that nobody disturbs: each of the
    handlers [hs] still to be called, called in the world the dispatch has
    reached and with the envelope [emit] builds there, returns normally and
    leaves [l] as the list of [ev] when it returns. *)
Fixpoint undisturbed (code : Handler → Envelope → World → Completion)
    (w : Ref) (ev : string) (p : JsVal) (l hs : list Handler) (σ : World) : Prop :=
  match hs with
  | [] => True
  | h :: rest =>
      ∃ this σ',
        windows σ !! w = Some this
        ∧ code h {| env_event := ev; env_id := -1;
                    env_windowLabel := label this; env_payload := p |} σ
          = Normal σ'
        ∧ handlers_at σ' w ev = l
        ∧ undisturbed code w ev p l rest σ'
  end.

(** The call [emit] makes of [h] for event [ev] with payload [p] on a window
    labelled [lbl], when [h] returns normally. *)
Definition call_of (ev : string) (lbl : string) (p : JsVal) (h : Handler)
    : Invocation :=
  {| inv_handler := h;
     inv_envelope := {| env_event := ev; env_id := -1; env_windowLabel := lbl;
                        env_payload := p |};
     inv_threw := None |}.

(** ** The other validating setters *)

Definition setPosition_message : string :=
  "the `position` argument must be either a LogicalPosition or a PhysicalPosition instance".

(** [Window.prototype.setMinSize]: a falsy [size] passes the guard and unsets
    the constraint. *)
Definition setMinSize (w : Ref) (size : JsVal) (σ : World) : option (Promise * World) :=
  this ← windows σ !! w;
  if truthy size
     && negb (is_string "Logical" (get "type" size))
     && negb (is_string "Physical" (get "type" size))
  then Some (Rejected (JsError setSize_message), σ)
  else
    Some (Pending,
          invoke "plugin:window|set_min_size"
            (JsObj [("label", JsStr (label this));
                    ("value",
                     if truthy size then
                       JsObj [("type", get "type" size);
                              ("data", JsObj [("width", get "width" size);
                                              ("height", get "height" size)])]
                     else JsNull)])
            σ).

(** [Window.prototype.setMaxSize]. *)
Definition setMaxSize (w : Ref) (size : JsVal) (σ : World) : option (Promise * World) :=
  this ← windows σ !! w;
  if truthy size
     && negb (is_string "Logical" (get "type" size))
     && negb (is_string "Physical" (get "type" size))
  then Some (Rejected (JsError setSize_message), σ)
  else
    Some (Pending,
          invoke "plugin:window|set_max_size"
            (JsObj [("label", JsStr (label this));
                    ("value",
                     if truthy size then
                       JsObj [("type", get "type" size);
                              ("data", JsObj [("width", get "width" size);
                                              ("height", get "height" size)])]
                     else JsNull)])
            σ).

(** [Window.prototype.setPosition]. *)
Definition setPosition (w : Ref) (position : JsVal) (σ : World)
    : option (Promise * World) :=
  this ← windows σ !! w;
  if negb (truthy position)
     || (negb (is_string "Logical" (get "type" position))
         && negb (is_string "Physical" (get "type" position)))
  then Some (Rejected (JsError setPosition_message), σ)
  else
    Some (Pending,
          invoke "plugin:window|set_position"
            (JsObj [("label", JsStr (label this));
                    ("value", JsObj [("type", get "type" position);
                                     ("data", JsObj [("x", get "x" position);
                                                     ("y", get "y" position)])])])
            σ).

(** [Window.prototype.setCursorPosition]. *)
Definition setCursorPosition (w : Ref) (position : JsVal) (σ : World)
    : option (Promise * World) :=
  this ← windows σ !! w;
  if negb (truthy position)
     || (negb (is_string "Logical" (get "type" position))
         && negb (is_string "Physical" (get "type" position)))
  then Some (Rejected (JsError setPosition_message), σ)
  else
    Some (Pending,
          invoke "plugin:window|set_cursor_position"
            (JsObj [("label", JsStr (label this));
                    ("value", JsObj [("type", get "type" position);
                                     ("data", JsObj [("x", get "x" position);
                                                     ("y", get "y" position)])])])
            σ).

(** The enumeration [UserAttentionType]. *)
Definition UserAttentionType_Critical : float := 1.
Definition UserAttentionType_Informational : float := 2.

(** [v === x] for a number [x]. *)
Definition is_number (x : float) (v : JsVal) : bool :=
  match v with
  | JsNum y => PrimFloat.eqb y x
  | _ => false
  end.

(** [Window.prototype.requestUserAttention]. *)
Definition requestUserAttention (w : Ref) (requestType : JsVal) (σ : World)
    : option (Promise * World) :=
  this ← windows σ !! w;
  let requestType_ :=
    if truthy requestType then
      if is_number UserAttentionType_Critical requestType
      then JsObj [("type", JsStr "Critical")]
      else JsObj [("type", JsStr "Informational")]
    else JsNull in
  Some (Pending,
        invoke "plugin:window|request_user_attention"
          (JsObj [("label", JsStr (label this)); ("value", requestType_)]) σ).

(** ** Handles to existing windows *)

(** [window.__TAURI_METADATA__], as far as the module reads it: the labels of
    the entries of [__windows] and the label of [__currentWindow]. *)
Record Metadata := {
  meta_windows : list string;
  meta_currentWindow : string;
}.

(** The module function [getCurrent]. *)
Definition getCurrent (meta : Metadata) (σ : World) : Ref * World :=
  new_Window (meta_currentWindow meta) [("skip", JsBool true)] σ.

(** [labels.map((w) => new Window(w.label, { skip: true }))]. *)
Fixpoint new_handles (labels : list string) (σ : World) : list Ref * World :=
  match labels with
  | [] => ([], σ)
  | lbl :: rest =>
      let '(w, σ1) := new_Window lbl [("skip", JsBool true)] σ in
      let '(ws, σ2) := new_handles rest σ1 in
      (w :: ws, σ2)
  end.

(** The module function [getAll]. *)
Definition getAll (meta : Metadata) (σ : World) : list Ref * World :=
  new_handles (meta_windows meta) σ.

(** [w.label === label] for a handle [w]. *)
Definition has_label (σ : World) (lbl : string) (w : Ref) : bool :=
  match windows σ !! w with
  | Some this => String.eqb (label this) lbl
  | None => false
  end.

(** [Window.getByLabel]: [None] is [null]. *)
Definition getByLabel (meta : Metadata) (lbl : string) (σ : World)
    : option Ref * World :=
  let '(ws, σ1) := getAll meta σ in
  if existsb (has_label σ1 lbl) ws then
    let '(w, σ2) := new_Window lbl [("skip", JsBool true)] σ1 in (Some w, σ2)
  else (None, σ1).

(** What the promise of [getFocusedWindow] becomes. *)
Inductive FocusedWindow :=
| FocusedIs (w : Ref)
| FocusedNone
| FocusedRejected (e : JsVal)
| FocusedPending.

(** The loop of [Window.getFocusedWindow] over the handles that are left:
    [isFocused] sends its command and the loop awaits the answer; [reply i]
    is the state the promise of the [i]-th query reaches. *)
Fixpoint focused_among (reply : nat → Promise) (i : nat) (ws : list Ref)
    (σ : World) : option (FocusedWindow * World) :=
  match ws with
  | [] => Some (FocusedNone, σ)
  | w :: rest =>
      this ← windows σ !! w;
      let σ1 := invoke "plugin:window|is_focused"
                  (JsObj [("label", JsStr (label this))]) σ in
      match reply i with
      | Fulfilled v =>
          if truthy v then Some (FocusedIs w, σ1)
          else focused_among reply (S i) rest σ1
      | Rejected e => Some (FocusedRejected e, σ1)
      | Pending => Some (FocusedPending, σ1)
      end
  end.

(** [Window.getFocusedWindow]. *)
Definition getFocusedWindow (meta : Metadata) (reply : nat → Promise) (σ : World)
    : option (FocusedWindow * World) :=
  let '(ws, σ1) := getAll meta σ in focused_among reply 0 ws σ1.

(** ** Composite listeners *)

(** The function [onFocusChanged] and [onFileDropEvent] resolve to, when it
    is called: it calls the unlisten functions it captured, in order. *)
Fixpoint unlisten_all (us : list UnlistenFn) (σ : World) : option Completion :=
  match us with
  | [] => Some (Normal σ)
  | u :: rest =>
      c ← unlisten u σ;
      match c with
      | Normal σ' => unlisten_all rest σ'
      | Throw e σ' => Some (Throw e σ')
      end
  end.

(** What [await this.listen(...)] hands to the code after it: the unlisten
    function, or the rejection, or nothing yet. *)
Inductive Awaited :=
| Got (u : UnlistenFn)
| Failed (e : JsVal)
| Waiting.

(** [await this.listen(ev, callback)].  For a local event the promise of
    [listen] is resolved when [listen] returns; for any other event it is the
    promise of the remote event subsystem, which reaches the state [reply]. *)
Definition await_listen (reply : Promise) (w : Ref) (ev : string)
    (callback : Handler) (σ : World) : option (Awaited * World) :=
  '(u, σ1) ← listen w ev callback σ;
  match u with
  | LocalUnlisten _ _ _ => Some (Got u, σ1)
  | RemoteUnlisten _ _ _ =>
      match reply with
      | Fulfilled _ => Some (Got u, σ1)
      | Rejected e => Some (Failed e, σ1)
      | Pending => Some (Waiting, σ1)
      end
  end.

(** What the promise of a composite listener becomes: the function that
    calls the unlisten functions captured, in order; a rejection; or nothing
    yet. *)
Inductive Subscription :=
| Subscribed (unlisten : list UnlistenFn)
| SubscriptionRejected (e : JsVal)
| SubscriptionPending.

(** [Window.prototype.onFocusChanged]: the two arrow functions, named
    [onFocus] and [onBlur], are registered one after the other, the second
    one once the first registration has been awaited.  The event names are
    constants of [@tauri-apps/api/event]; [replyFocus] and [replyBlur] are
    the states the promises of the two registrations reach. *)
Definition onFocusChanged (WINDOW_FOCUS WINDOW_BLUR : string)
    (replyFocus replyBlur : Promise) (w : Ref) (onFocus onBlur : Handler)
    (σ : World) : option (Subscription * World) :=
  '(focus, σ1) ← await_listen replyFocus w WINDOW_FOCUS onFocus σ;
  match focus with
  | Failed e => Some (SubscriptionRejected e, σ1)
  | Waiting => Some (SubscriptionPending, σ1)
  | Got unlistenFocus =>
      '(blur, σ2) ← await_listen replyBlur w WINDOW_BLUR onBlur σ1;
      match blur with
      | Failed e => Some (SubscriptionRejected e, σ2)
      | Waiting => Some (SubscriptionPending, σ2)
      | Got unlistenBlur => Some (Subscribed [unlistenFocus; unlistenBlur], σ2)
      end
  end.

(** [Window.prototype.onFileDropEvent]: three registrations, each awaited
    before the next. *)
Definition onFileDropEvent
    (WINDOW_FILE_DROP WINDOW_FILE_DROP_HOVER WINDOW_FILE_DROP_CANCELLED : string)
    (replyDrop replyHover replyCancel : Promise)
    (w : Ref) (onDrop onHover onCancel : Handler) (σ : World)
    : option (Subscription * World) :=
  '(drop, σ1) ← await_listen replyDrop w WINDOW_FILE_DROP onDrop σ;
  match drop with
  | Failed e => Some (SubscriptionRejected e, σ1)
  | Waiting => Some (SubscriptionPending, σ1)
  | Got unlistenFileDrop =>
      '(hover, σ2) ← await_listen replyHover w WINDOW_FILE_DROP_HOVER onHover σ1;
      match hover with
      | Failed e => Some (SubscriptionRejected e, σ2)
      | Waiting => Some (SubscriptionPending, σ2)
      | Got unlistenFileHover =>
          '(cancel, σ3) ←
            await_listen replyCancel w WINDOW_FILE_DROP_CANCELLED onCancel σ2;
          match cancel with
          | Failed e => Some (SubscriptionRejected e, σ3)
          | Waiting => Some (SubscriptionPending, σ3)
          | Got unlistenCancel =>
              Some (Subscribed [unlistenFileDrop; unlistenFileHover; unlistenCancel],
                    σ3)
          end
      end
  end.

(** The unlisten function of a local listener, called [n] times in a row;
    the calls stop at the first one that throws. *)
Fixpoint unlisten_times (n : nat) (u : UnlistenFn) (σ : World) : option Completion :=
  match n with
  | 0 => Some (Normal σ)
  | S n' =>
      c ← unlisten u σ;
      match c with
      | Normal σ' => unlisten_times n' u σ'
      | Throw e σ' => Some (Throw e σ')
      end
  end.

(** ** Values received from the host *)

(** [o.k] where the access itself can fail: reading a property of [null] or
    [undefined] is a [TypeError] ([None]). *)
Definition member (k : string) (o : JsVal) : option JsVal :=
  match o with
  | JsUndefined | JsNull => None
  | _ => Some (get k o)
  end.

(** An instance of [PhysicalPosition] as a value: the properties its
    constructor sets. *)
Definition mapPhysicalPosition (m : JsVal) : option JsVal :=
  x ← member "x" m;
  y ← member "y" m;
  Some (JsObj [("type", JsStr "Physical"); ("x", x); ("y", y)]).

(** Likewise for [PhysicalSize]. *)
Definition mapPhysicalSize (m : JsVal) : option JsVal :=
  width ← member "width" m;
  height ← member "height" m;
  Some (JsObj [("type", JsStr "Physical"); ("width", width); ("height", height)]).

(** The module function [mapMonitor]. *)
Definition mapMonitor (m : JsVal) : option JsVal :=
  match m with
  | JsNull => Some JsNull
  | _ =>
      name ← member "name" m;
      scaleFactor ← member "scaleFactor" m;
      position ← member "position" m ≫= mapPhysicalPosition;
      size ← member "size" m ≫= mapPhysicalSize;
      Some (JsObj [("name", name); ("scaleFactor", scaleFactor);
                   ("position", position); ("size", size)])
  end.

(** The callback of [availableMonitors]: [ms.map(mapMonitor)]. *)
Definition mapMonitors (ms : list JsVal) : option (list JsVal) :=
  mapM mapMonitor ms.

(** The command [isFocused] sends for a window labelled [lbl]. *)
Definition is_focused_query (lbl : string) : Command :=
  {| cmd := "plugin:window|is_focused"; args := JsObj [("label", JsStr lbl)] |}.

(** The command [close] sends for a window labelled [lbl]. *)
Definition close_command (lbl : string) : Command :=
  {| cmd := "plugin:window|close"; args := JsObj [("label", JsStr lbl)] |}.

(** [null] or [undefined]. *)
Definition nullish (v : JsVal) : Prop := v = JsUndefined ∨ v = JsNull.

(** ** Clients used in examples *)

Module Scenario.

(** Client functions that do nothing. *)
Definition quiet : Handler → Envelope → World → Completion :=
  λ _ _ σ, Normal σ.

(** Function 1 calls the unlisten function it got from
    [listen("tauri://created", ...)] on window 0; the others do nothing. *)
Definition unlisten_self : Handler → Envelope → World → Completion :=
  λ h _ σ,
    if decide (h = 1) then
      default (Normal σ) (unlisten (LocalUnlisten 0 "tauri://created" 1) σ)
    else Normal σ.

(** Function 1 throws; the others do nothing. *)
Definition thrower : Handler → Envelope → World → Completion :=
  λ h _ σ, if decide (h = 1) then Throw (JsError "boom") σ else Normal σ.

(** [Window.getByLabel]-style handle: [new Window("w1", { skip: true })]. *)
Definition existing : Ref * World :=
  new_Window "w1" [("skip", JsBool true)] empty_world.

(** [new Window("w1")]: the creation command is on its way. *)
Definition creating : Ref * World := new_Window "w1" [] empty_world.

(** The world after [listen(ev, h)] on [w]. *)
Definition after_listen (w : Ref) (ev : string) (h : Handler) (σ : World) : World :=
  match listen w ev h σ with
  | Some (_, σ') => σ'
  | None => σ
  end.

(** Functions 1 and 2 listen to the created event of the existing window. *)
Definition two_listeners : World :=
  after_listen existing.1 "tauri://created" 2
    (after_listen existing.1 "tauri://created" 1 existing.2).

(** Functions 2, 1 and 3, in this order, listen to the created event. *)
Definition three_listeners : World :=
  after_listen existing.1 "tauri://created" 3
    (after_listen existing.1 "tauri://created" 1
       (after_listen existing.1 "tauri://created" 2 existing.2)).

(** A close request as the remote event subsystem delivers it. *)
Definition close_request : Envelope :=
  {| env_event := "tauri://close-requested"; env_id := 12;
     env_windowLabel := "w1"; env_payload := JsNull |}.

(** An [async] handler that fails before it could call [preventDefault]. *)
Definition failing_handler : Close.CloseRequestedEvent → Close.HandlerRun :=
  λ _, {| Close.calls := []; Close.outcome := Close.ReturnsRejected (JsError "failed") |}.

(** A handler that lets the window close. *)
Definition agreeing_handler : Close.CloseRequestedEvent → Close.HandlerRun :=
  λ _, {| Close.calls := [Close.CallIsPreventDefault]; Close.outcome := Close.Returns |}.

(** A handler that keeps the window open. *)
Definition refusing_handler : Close.CloseRequestedEvent → Close.HandlerRun :=
  λ _, {| Close.calls := [Close.CallPreventDefault]; Close.outcome := Close.Returns |}.

(** A size whose tag is not one of the two. *)
Definition square : JsVal :=
  JsObj [("type", JsStr "Square"); ("width", JsNum 600); ("height", JsNum 500)].

End Scenario.

(** ** Further values used in examples *)

Module Cases.

(** [new LogicalSize(600, 500)] and [new LogicalPosition(10, 20)] as values. *)
Definition logical_size : JsVal :=
  JsObj [("type", JsStr "Logical"); ("width", JsNum 600); ("height", JsNum 500)].

Definition logical_position : JsVal :=
  JsObj [("type", JsStr "Logical"); ("x", JsNum 10); ("y", JsNum 20)].

(** The window of [Scenario.existing]. *)
Definition w1 : WindowObj := {| label := "w1"; listeners := ∅ |}.

(** The answer of the host to a size query. *)
Definition host_size : JsVal := JsObj [("width", JsNum 800); ("height", JsNum 600)].

(** A monitor as the host describes it. *)
Definition host_monitor : JsVal :=
  JsObj [("name", JsStr "eDP-1"); ("scaleFactor", JsNum 2);
         ("position", JsObj [("x", JsNum 0); ("y", JsNum 0)]);
         ("size", JsObj [("width", JsNum 2560); ("height", JsNum 1440)])].

(** The host knows the windows [main] and [about]; the code runs in [main]. *)
Definition meta : Metadata :=
  {| meta_windows := ["main"; "about"]; meta_currentWindow := "main" |}.

(** Function 1 calls its own unlisten function for the created event of
    window 0 when the payload is the string [stop]; otherwise it, and every
    other function, does nothing. *)
Definition unlisten_on_stop : Handler → Envelope → World → Completion :=
  λ h env σ,
    if bool_decide (h = 1) && is_string "stop" (env_payload env) then
      default (Normal σ) (unlisten (LocalUnlisten 0 "tauri://created" 1) σ)
    else Normal σ.

(** [main] is not focused, [about] is. *)
Definition second_is_focused : nat → Promise :=
  λ i, Fulfilled (JsBool (Nat.eqb i 1)).

End Cases.

(** * Properties *)

(** ** Geometry conversion *)

Lemma size_toLogical_tag (this : Geometry.PhysicalSize) (s : float) :
  Geometry.ls_type (Geometry.size_toLogical this s) = "Logical".
Proof. reflexivity. Qed.

Lemma position_toLogical_tag (this : Geometry.PhysicalPosition) (s : float) :
  Geometry.lp_type (Geometry.position_toLogical this s) = "Logical".
Proof. reflexivity. Qed.

(** C8: for every scale factor [s > 0] and every physical value with
    components [(x, y)], [toLogical] with scale factor [s] is the Logical
    value with components [(x / s, y / s)], for sizes and for positions: the
    result is tagged Logical, its first component is [x / s] and its second
    one [y / s]. *)
Theorem toLogical_divides_components (s x y : float) :
  (0 <? s)%float = true →
  Geometry.size_toLogical (Geometry.new_PhysicalSize x y) s
    = {| Geometry.ls_type := "Logical";
         Geometry.ls_width := (x / s)%float;
         Geometry.ls_height := (y / s)%float |}
  ∧ Geometry.position_toLogical (Geometry.new_PhysicalPosition x y) s
    = {| Geometry.lp_type := "Logical";
         Geometry.lp_x := (x / s)%float;
         Geometry.lp_y := (y / s)%float |}.
Proof.
  intros _. split.
  - unfold Geometry.size_toLogical, Geometry.new_LogicalSize,
      Geometry.new_PhysicalSize. cbn [Geometry.ps_width Geometry.ps_height].
    reflexivity.
  - unfold Geometry.position_toLogical, Geometry.new_LogicalPosition,
      Geometry.new_PhysicalPosition. cbn [Geometry.pp_x Geometry.pp_y].
    reflexivity.
Qed.

Lemma toLogical_divides_components_witness :
  (0 <? 2)%float = true
  ∧ Geometry.size_toLogical (Geometry.new_PhysicalSize 800 600) 2
    = {| Geometry.ls_type := "Logical"; Geometry.ls_width := 400%float;
         Geometry.ls_height := 300%float |}
  ∧ Geometry.position_toLogical (Geometry.new_PhysicalPosition 800 600) 2
    = {| Geometry.lp_type := "Logical"; Geometry.lp_x := 400%float;
         Geometry.lp_y := 300%float |}.
Proof.
  split; [reflexivity|].
  exact (toLogical_divides_components 2 800 600 eq_refl).
Defined.

(** ** The validating setter *)

Lemma is_string_true (s : string) (v : JsVal) :
  is_string s v = true ↔ v = JsStr s.
Proof.
  destruct v; simpl; try (split; [discriminate | intros; discriminate]).
  rewrite String.eqb_eq. split; [intros ->; reflexivity | intros [= ->]; reflexivity].
Qed.

Lemma is_string_false (s : string) (v : JsVal) :
  v ≠ JsStr s → is_string s v = false.
Proof.
  intros Hne. destruct (is_string s v) eqn:E; [|reflexivity].
  apply is_string_true in E. contradiction.
Qed.

(** C6: a size whose tag is neither Logical nor Physical makes [setSize]
    fail at once with the argument error; the world, and so the list of
    commands sent to the host, is as before. *)
Theorem setSize_rejects_unknown_tag (w : Ref) (this : WindowObj) (size : JsVal)
    (σ : World) :
  windows σ !! w = Some this →
  get "type" size ≠ JsStr "Logical" →
  get "type" size ≠ JsStr "Physical" →
  setSize w size σ = Some (Rejected (JsError setSize_message), σ).
Proof.
  intros Hw HL HP. unfold setSize. rewrite Hw. simpl.
  rewrite (is_string_false _ _ HL), (is_string_false _ _ HP). simpl.
  rewrite orb_true_r. reflexivity.
Qed.

Lemma setSize_rejects_unknown_tag_witness :
  windows Scenario.existing.2 !! Scenario.existing.1
    = Some {| label := "w1"; listeners := ∅ |}
  ∧ get "type" Scenario.square ≠ JsStr "Logical"
  ∧ get "type" Scenario.square ≠ JsStr "Physical"
  ∧ setSize Scenario.existing.1 Scenario.square Scenario.existing.2
    = Some (Rejected (JsError setSize_message), Scenario.existing.2).
Proof.
  assert (H1 : windows Scenario.existing.2 !! Scenario.existing.1
               = Some {| label := "w1"; listeners := ∅ |}) by (vm_compute; reflexivity).
  assert (H2 : get "type" Scenario.square ≠ JsStr "Logical") by (simpl; discriminate).
  assert (H3 : get "type" Scenario.square ≠ JsStr "Physical") by (simpl; discriminate).
  split; [exact H1|]. split; [exact H2|]. split; [exact H3|].
  exact (setSize_rejects_unknown_tag _ _ _ _ H1 H2 H3).
Defined.

(** ** Local dispatch *)

Section DispatchFacts.

Variable code : Handler → Envelope → World → Completion.

Lemma dispatch_unfold (fuel : nat) (w : Ref) (ev : string) (p : JsVal) (i : nat)
    (σ : World) :
  dispatch code fuel w ev p i σ =
  (this ← windows σ !! w;
   match default [] (listeners this !! ev) !! i with
   | None => Some {| settled := Fulfilled JsUndefined; invoked := []; final := σ |}
   | Some handler =>
       match fuel with
       | 0 => None
       | S fuel' =>
           let envelope := {| env_event := ev; env_id := -1;
                              env_windowLabel := label this; env_payload := p |} in
           match code handler envelope σ with
           | Throw e σ' =>
               Some {| settled := Rejected e;
                       invoked := [{| inv_handler := handler; inv_envelope := envelope;
                                      inv_threw := Some e |}];
                       final := σ' |}
           | Normal σ' =>
               r ← dispatch code fuel' w ev p (S i) σ';
               Some {| settled := settled r;
                       invoked := {| inv_handler := handler; inv_envelope := envelope;
                                     inv_threw := None |} :: invoked r;
                       final := final r |}
           end
       end
   end).
Proof. destruct fuel; reflexivity. Qed.

Lemma handlers_at_lookup (σ : World) (w : Ref) (this : WindowObj) (ev : string) :
  windows σ !! w = Some this →
  default [] (listeners this !! ev) = handlers_at σ w ev.
Proof. intros H. unfold handlers_at. rewrite H. reflexivity. Qed.

(** C10: with no handler registered for a local event on the handle, [emit]
    resolves, calls no handler and leaves the world, hence the table of
    listeners, as it was. *)
Theorem emit_without_handlers (fuel : nat) (w : Ref) (this : WindowObj)
    (ev : string) (p : JsVal) (σ : World) :
  windows σ !! w = Some this →
  includes localTauriEvents ev = true →
  handlers_at σ w ev = [] →
  emit code fuel w ev p σ
  = Some {| settled := Fulfilled JsUndefined; invoked := []; final := σ |}.
Proof.
  intros Hw Hlocal Hnone. unfold emit. rewrite Hlocal.
  rewrite dispatch_unfold, Hw. simpl.
  rewrite (handlers_at_lookup _ _ _ _ Hw), Hnone. reflexivity.
Qed.

(** Every call the loop makes ends normally, except possibly the last one. *)
Lemma dispatch_throw_is_last (fuel : nat) (w : Ref) (ev : string) (p : JsVal) :
  ∀ (i : nat) (σ : World) (r : EmitRun) (pre post : list Invocation)
    (inv : Invocation) (e : JsVal),
    dispatch code fuel w ev p i σ = Some r →
    invoked r = pre ++ inv :: post →
    inv_threw inv = Some e →
    post = [] ∧ settled r = Rejected e.
Proof.
  induction fuel as [|fuel IH]; intros i σ r pre post inv e Hrun Hsplit Hthrew;
    rewrite dispatch_unfold in Hrun;
    destruct (windows σ !! w) as [this|]; simpl in Hrun; try discriminate;
    destruct (default [] (listeners this !! ev) !! i) as [handler|];
    try discriminate.
  - injection Hrun as <-. simpl in Hsplit. destruct pre; discriminate.
  - destruct (code handler _ σ) as [σ'|e' σ'].
    + destruct (dispatch code fuel w ev p (S i) σ') as [r'|] eqn:Hrest;
        simpl in Hrun; [|discriminate].
      injection Hrun as <-. simpl in Hsplit.
      destruct pre as [|first pre].
      * simpl in Hsplit. injection Hsplit as <- _. simpl in Hthrew. discriminate.
      * simpl in Hsplit. injection Hsplit as _ Hsplit.
        exact (IH _ _ _ _ _ _ _ Hrest Hsplit Hthrew).
    + injection Hrun as <-. simpl in Hsplit.
      destruct pre as [|first pre].
      * simpl in Hsplit. injection Hsplit as <- <-. simpl in Hthrew.
        injection Hthrew as <-. split; reflexivity.
      * simpl in Hsplit. injection Hsplit as _ Hsplit. destruct pre; discriminate.
  - injection Hrun as <-. simpl in Hsplit. destruct pre; discriminate.
Qed.

(** C7: when a handler called by a local [emit] throws, no handler is called
    after it in that dispatch, and the promise [emit] returns to its caller is
    rejected with the error thrown. *)
Theorem emit_handler_error_aborts (fuel : nat) (w : Ref) (ev : string) (p : JsVal)
    (σ : World) (r : EmitRun) (pre post : list Invocation) (inv : Invocation)
    (e : JsVal) :
  includes localTauriEvents ev = true →
  emit code fuel w ev p σ = Some r →
  invoked r = pre ++ inv :: post →
  inv_threw inv = Some e →
  post = [] ∧ settled r = Rejected e.
Proof.
  intros Hlocal Hrun. unfold emit in Hrun. rewrite Hlocal in Hrun.
  exact (dispatch_throw_is_last _ _ _ _ _ _ _ _ _ _ _ Hrun).
Qed.

(** The loop over a list nobody touches: from index [i] on, it calls what is
    left of the list, in order. *)
Lemma dispatch_untouched (w : Ref) (ev : string) (p : JsVal) (lbl : string)
    (l : list Handler) :
  Forall (leaves_list code w ev) l →
  ∀ (fuel i : nat) (σ : World),
    label_at σ w = Some lbl →
    handlers_at σ w ev = l →
    length l - i ≤ fuel →
    ∃ r, dispatch code fuel w ev p i σ = Some r
         ∧ settled r = Fulfilled JsUndefined
         ∧ invoked r = call_of ev lbl p <$> drop i l
         ∧ handlers_at (final r) w ev = l
         ∧ label_at (final r) w = Some lbl.
Proof.
  intros Hquiet fuel.
  induction fuel as [|fuel IH]; intros i σ Hlbl Hl Hfuel;
    rewrite dispatch_unfold; unfold label_at in Hlbl;
    destruct (windows σ !! w) as [this|] eqn:Hw; try discriminate;
    simpl in Hlbl; injection Hlbl as Hlbl; simpl;
    rewrite (handlers_at_lookup _ _ _ _ Hw), Hl;
    destruct (l !! i) as [h|] eqn:Hi.
  - apply lookup_lt_Some in Hi. lia.
  - apply lookup_ge_None in Hi. rewrite (drop_ge _ _ Hi).
    eexists. split; [reflexivity|]. simpl. unfold label_at. rewrite Hw. simpl.
    rewrite Hlbl. auto.
  - assert (Hin : h ∈ l) by (eapply list_elem_of_lookup_2; exact Hi).
    rewrite Forall_forall in Hquiet.
    destruct (Hquiet h Hin {| env_event := ev; env_id := -1;
                              env_windowLabel := label this; env_payload := p |} σ)
      as (σ' & Hcode & Hsame & Hlabel).
    rewrite Hcode.
    assert (Hlbl' : label_at σ' w = Some lbl).
    { rewrite Hlabel. unfold label_at. rewrite Hw. simpl. rewrite Hlbl. reflexivity. }
    assert (Hl' : handlers_at σ' w ev = l) by (rewrite Hsame; exact Hl).
    destruct (IH (S i) σ' Hlbl' Hl') as (r & Hr & Hs & Hinv & Hfin & Hlab); [lia|].
    rewrite Hr. simpl. eexists. split; [reflexivity|]. simpl.
    rewrite (drop_S _ _ _ Hi). simpl. rewrite Hinv, Hlbl. auto.
  - apply lookup_ge_None in Hi. rewrite (drop_ge _ _ Hi).
    eexists. split; [reflexivity|]. simpl. unfold label_at. rewrite Hw. simpl.
    rewrite Hlbl. auto.
Qed.

(** The loop over a list whose first handlers leave it alone, up to one that
    throws: the handlers before it are called in order, then the one that
    throws, and nothing else. *)
Lemma dispatch_throw_after_prefix (w : Ref) (ev : string) (p : JsVal)
    (lbl : string) (l1 l2 : list Handler) (h : Handler) (e : JsVal) :
  Forall (leaves_list code w ev) l1 →
  (∀ env σ, ∃ σ', code h env σ = Throw e σ') →
  ∀ (fuel i : nat) (σ : World),
    label_at σ w = Some lbl →
    handlers_at σ w ev = l1 ++ h :: l2 →
    i ≤ length l1 →
    length l1 - i < fuel →
    ∃ r, dispatch code fuel w ev p i σ = Some r
         ∧ settled r = Rejected e
         ∧ inv_handler <$> invoked r = drop i l1 ++ [h].
Proof.
  intros Hquiet Hthrows fuel.
  induction fuel as [|fuel IH]; intros i σ Hlbl Hl Hi Hfuel; [lia|].
  rewrite dispatch_unfold. unfold label_at in Hlbl.
  destruct (windows σ !! w) as [this|] eqn:Hw; [|discriminate].
  simpl in Hlbl. injection Hlbl as Hlbl. simpl.
  rewrite (handlers_at_lookup _ _ _ _ Hw), Hl.
  destruct (decide (i = length l1)) as [->|Hlt].
  - rewrite list_lookup_middle by reflexivity.
    destruct (Hthrows {| env_event := ev; env_id := -1;
                         env_windowLabel := label this; env_payload := p |} σ)
      as (σ' & Hcode).
    rewrite Hcode. eexists. split; [reflexivity|]. simpl.
    rewrite drop_all. auto.
  - assert (Hi' : i < length l1) by lia.
    destruct (lookup_lt_is_Some_2 l1 i Hi') as [x Hx].
    rewrite (lookup_app_l_Some _ _ _ _ Hx).
    assert (Hin : x ∈ l1) by (eapply list_elem_of_lookup_2; exact Hx).
    rewrite Forall_forall in Hquiet.
    destruct (Hquiet x Hin {| env_event := ev; env_id := -1;
                              env_windowLabel := label this; env_payload := p |} σ)
      as (σ' & Hcode & Hsame & Hlabel).
    rewrite Hcode.
    assert (Hlbl' : label_at σ' w = Some lbl).
    { rewrite Hlabel. unfold label_at. rewrite Hw. simpl. rewrite Hlbl. reflexivity. }
    assert (Hl' : handlers_at σ' w ev = l1 ++ h :: l2) by (rewrite Hsame; exact Hl).
    destruct (IH (S i) σ' Hlbl' Hl') as (r & Hr & Hs & Hinv); [lia | lia |].
    rewrite Hr. simpl. eexists. split; [reflexivity|].
    cbn [settled invoked]. split; [exact Hs|].
    rewrite fmap_cons, Hinv, (drop_S _ _ _ Hx). reflexivity.
Qed.

(** With enough fuel for the handlers before the one that throws, [emit]
    returns, rejected, having called the handlers up to that one. *)
Lemma emit_throw_after_prefix (fuel : nat) (w : Ref) (ev : string) (p : JsVal)
    (lbl : string) (l1 l2 : list Handler) (h : Handler) (e : JsVal) (σ : World) :
  includes localTauriEvents ev = true →
  label_at σ w = Some lbl →
  handlers_at σ w ev = l1 ++ h :: l2 →
  Forall (leaves_list code w ev) l1 →
  (∀ env σ', ∃ σ'', code h env σ' = Throw e σ'') →
  length l1 < fuel →
  ∃ r, emit code fuel w ev p σ = Some r
       ∧ settled r = Rejected e
       ∧ inv_handler <$> invoked r = l1 ++ [h].
Proof.
  intros Hlocal Hlbl Hl Hquiet Hthrows Hfuel. unfold emit. rewrite Hlocal.
  destruct (dispatch_throw_after_prefix w ev p lbl l1 l2 h e Hquiet Hthrows
              fuel 0 σ Hlbl Hl) as (r & Hr & Hs & Hinv); [lia | lia |].
  exists r. rewrite drop_0 in Hinv. auto.
Qed.

(** The loop of a dispatch that nobody disturbs: from index [i] on it calls
    what is left of the list, in order, and every call returns normally. *)
Lemma dispatch_undisturbed (w : Ref) (ev : string) (p : JsVal) (l : list Handler) :
  ∀ (fuel i : nat) (σ : World),
    is_Some (windows σ !! w) →
    handlers_at σ w ev = l →
    undisturbed code w ev p l (drop i l) σ →
    length l - i ≤ fuel →
    ∃ r, dispatch code fuel w ev p i σ = Some r
         ∧ settled r = Fulfilled JsUndefined
         ∧ inv_handler <$> invoked r = drop i l
         ∧ Forall (λ inv, inv_threw inv = None) (invoked r)
         ∧ handlers_at (final r) w ev = l.
Proof.
  intros fuel.
  induction fuel as [|fuel IH]; intros i σ [this Hw] Hl Hpass Hfuel;
    rewrite dispatch_unfold, Hw; simpl;
    rewrite (handlers_at_lookup _ _ _ _ Hw), Hl;
    destruct (l !! i) as [h|] eqn:Hi.
  - apply lookup_lt_Some in Hi. lia.
  - apply lookup_ge_None in Hi. rewrite (drop_ge _ _ Hi).
    eexists. split; [reflexivity|]. simpl. auto.
  - rewrite (drop_S _ _ _ Hi) in Hpass. simpl in Hpass.
    destruct Hpass as (this' & σ' & Hw' & Hcode & Hl' & Hrest).
    rewrite Hw in Hw'. injection Hw' as <-. rewrite Hcode.
    assert (Hexists : is_Some (windows σ' !! w)).
    { unfold handlers_at in Hl'. destruct (windows σ' !! w); [eauto|].
      rewrite <- Hl', lookup_nil in Hi. discriminate. }
    destruct (IH (S i) σ' Hexists Hl' Hrest) as (r & Hr & Hs & Hinv & Hok & Hfin);
      [lia|].
    rewrite Hr. simpl. eexists. split; [reflexivity|].
    cbn [settled invoked final]. split; [exact Hs|].
    split; [rewrite fmap_cons, Hinv, (drop_S _ _ _ Hi); reflexivity|].
    split; [constructor; [reflexivity | exact Hok] | exact Hfin].
  - apply lookup_ge_None in Hi. rewrite (drop_ge _ _ Hi).
    eexists. split; [reflexivity|]. simpl. auto.
Qed.


End DispatchFacts.

Lemma emit_without_handlers_witness :
  windows Scenario.existing.2 !! Scenario.existing.1
    = Some {| label := "w1"; listeners := ∅ |}
  ∧ includes localTauriEvents "tauri://error" = true
  ∧ handlers_at Scenario.existing.2 Scenario.existing.1 "tauri://error" = []
  ∧ emit Scenario.quiet 0 Scenario.existing.1 "tauri://error" (JsError "denied")
         Scenario.existing.2
    = Some {| settled := Fulfilled JsUndefined; invoked := [];
              final := Scenario.existing.2 |}.
Proof.
  assert (H1 : windows Scenario.existing.2 !! Scenario.existing.1
               = Some {| label := "w1"; listeners := ∅ |}) by (vm_compute; reflexivity).
  assert (H2 : includes localTauriEvents "tauri://error" = true) by reflexivity.
  assert (H3 : handlers_at Scenario.existing.2 Scenario.existing.1 "tauri://error" = [])
    by (vm_compute; reflexivity).
  split; [exact H1|]. split; [exact H2|]. split; [exact H3|].
  exact (emit_without_handlers Scenario.quiet 0 _ _ _ (JsError "denied") _ H1 H2 H3).
Defined.

Lemma emit_handler_error_aborts_witness :
  let run := {| settled := Rejected (JsError "boom");
                invoked := [call_of "tauri://created" "w1" JsUndefined 2;
                            {| inv_handler := 1;
                               inv_envelope :=
                                 inv_envelope (call_of "tauri://created" "w1" JsUndefined 1);
                               inv_threw := Some (JsError "boom") |}];
                final := Scenario.three_listeners |} in
  handlers_at Scenario.three_listeners 0 "tauri://created" = [2; 1; 3]
  ∧ emit Scenario.thrower 3 0 "tauri://created" JsUndefined Scenario.three_listeners
    = Some run
  ∧ settled run = Rejected (JsError "boom").
Proof.
  intros run.
  assert (Hrun : emit Scenario.thrower 3 0 "tauri://created" JsUndefined
                   Scenario.three_listeners = Some run) by (vm_compute; reflexivity).
  split; [vm_compute; reflexivity|]. split; [exact Hrun|].
  exact (proj2 (emit_handler_error_aborts Scenario.thrower 3 0 "tauri://created"
                  JsUndefined Scenario.three_listeners run
                  [call_of "tauri://created" "w1" JsUndefined 2] []
                  _ (JsError "boom") eq_refl Hrun eq_refl eq_refl)).
Defined.

Lemma quiet_leaves_list (w : Ref) (ev : string) (h : Handler) :
  leaves_list Scenario.quiet w ev h.
Proof. intros env σ. exists σ. auto. Qed.



(** ** Registration and removal *)

Lemma indexOf_absent (l : list Handler) (h : Handler) :
  h ∉ l → JsArray.indexOf l h = (-1)%Z.
Proof.
  induction l as [|x l IH]; intros Hnot; simpl; [reflexivity|].
  apply not_elem_of_cons in Hnot as [Hne Hnot].
  destruct (decide (x = h)) as [->|_]; [contradiction|].
  rewrite (IH Hnot). reflexivity.
Qed.

Lemma indexOf_first (l1 l2 : list Handler) (h : Handler) :
  h ∉ l1 → JsArray.indexOf (l1 ++ h :: l2) h = Z.of_nat (length l1).
Proof.
  induction l1 as [|x l1 IH]; intros Hnot; simpl.
  - destruct (decide (h = h)); [reflexivity | contradiction].
  - apply not_elem_of_cons in Hnot as [Hne Hnot].
    destruct (decide (x = h)) as [->|_]; [contradiction|].
    rewrite (IH Hnot).
    destruct (Z.ltb_spec (Z.of_nat (length l1)) 0); lia.
Qed.

Lemma splice_one_at (l1 l2 : list Handler) (h : Handler) :
  JsArray.splice (l1 ++ h :: l2) (Z.of_nat (length l1)) 1 = l1 ++ l2.
Proof.
  unfold JsArray.splice. rewrite length_app. simpl.
  destruct (Z.ltb_spec (Z.of_nat (length l1)) 0) as [Hneg|_]; [lia|].
  rewrite (Z.min_l (Z.of_nat (length l1))) by lia.
  rewrite (Z.max_l 1 0) by lia. rewrite Z.min_l by lia.
  rewrite Nat2Z.id.
  replace (Z.to_nat (Z.of_nat (length l1) + 1)) with (length (l1 ++ [h]))
    by (rewrite length_app; simpl; lia).
  rewrite take_app_length.
  rewrite (cons_middle h l1 l2), (assoc_L (++)), drop_app_length. reflexivity.
Qed.

Lemma splice_minus_one (l : list Handler) (x : Handler) :
  JsArray.splice (l ++ [x]) (-1) 1 = l.
Proof.
  unfold JsArray.splice. rewrite length_app. simpl.
  replace (Z.of_nat (length l + 1) + -1)%Z with (Z.of_nat (length l)) by lia.
  rewrite (Z.max_l (Z.of_nat (length l)) 0) by lia.
  rewrite (Z.max_l 1 0) by lia. rewrite Z.min_l by lia.
  rewrite Nat2Z.id.
  replace (Z.to_nat (Z.of_nat (length l) + 1)) with (length (l ++ [x]))
    by (rewrite length_app; simpl; lia).
  rewrite take_app_length, drop_all, app_nil_r. reflexivity.
Qed.

(** For a local event [once] does what [listen] does. *)
Lemma once_local_is_listen (w : Ref) (ev : string) (h : Handler) (σ : World) :
  includes localTauriEvents ev = true → once w ev h σ = listen w ev h σ.
Proof.
  intros Hlocal. unfold once, listen, _handleTauriEvent. rewrite Hlocal.
  destruct (windows σ !! w) as [this|]; reflexivity.
Qed.

(** Registering appends to the list of the event. *)
Lemma handleTauriEvent_appends (w : Ref) (this : WindowObj) (ev : string)
    (h : Handler) (σ : World) :
  windows σ !! w = Some this →
  includes localTauriEvents ev = true →
  ∃ σ', _handleTauriEvent w ev h σ = Some (true, σ')
        ∧ handlers_at σ' w ev = handlers_at σ w ev ++ [h]
        ∧ label_at σ' w = label_at σ w.
Proof.
  intros Hw Hlocal. unfold _handleTauriEvent. rewrite Hlocal, Hw. simpl.
  eexists. split; [reflexivity|].
  unfold handlers_at, label_at, set_window. simpl.
  rewrite lookup_insert_eq, Hw. simpl. rewrite lookup_insert_eq. simpl.
  destruct (listeners this !! ev); auto.
Qed.

(** The local unlisten function splices the list at [indexOf]. *)
Lemma unlisten_local_splices (w : Ref) (this : WindowObj) (ev : string)
    (h : Handler) (l : list Handler) (σ : World) :
  windows σ !! w = Some this →
  listeners this !! ev = Some l →
  ∃ σ', unlisten (LocalUnlisten w ev h) σ = Some (Normal σ')
        ∧ handlers_at σ' w ev = JsArray.splice l (JsArray.indexOf l h) 1
        ∧ host σ' = host σ.
Proof.
  intros Hw Hl. unfold unlisten. rewrite Hw. simpl. rewrite Hl.
  eexists. split; [reflexivity|].
  unfold handlers_at, set_window. simpl.
  rewrite lookup_insert_eq. simpl. rewrite lookup_insert_eq. auto.
Qed.

(** X9: while the function is in the list, calling its unlisten function
    removes its first occurrence and nothing else: the other handlers, and
    its later registrations, stay in their order. *)
Lemma unlisten_removes_first_occurrence (w : Ref) (this : WindowObj) (ev : string)
    (h : Handler) (l1 l2 : list Handler) (σ : World) :
  windows σ !! w = Some this →
  listeners this !! ev = Some (l1 ++ h :: l2) →
  h ∉ l1 →
  ∃ σ', unlisten (LocalUnlisten w ev h) σ = Some (Normal σ')
        ∧ handlers_at σ' w ev = l1 ++ l2.
Proof.
  intros Hw Hl Hnot.
  destruct (unlisten_local_splices w this ev h _ σ Hw Hl) as (σ' & Hrun & Hat & _).
  exists σ'. split; [exact Hrun|].
  rewrite Hat, (indexOf_first _ _ _ Hnot). apply splice_one_at.
Qed.

(** Once the function is no longer in the list, [indexOf] is [-1] and the
    splice removes the last handler, whichever it is. *)
Lemma unlisten_absent_removes_last (w : Ref) (this : WindowObj) (ev : string)
    (h g : Handler) (l : list Handler) (σ : World) :
  windows σ !! w = Some this →
  listeners this !! ev = Some (l ++ [g]) →
  h ∉ l ++ [g] →
  ∃ σ', unlisten (LocalUnlisten w ev h) σ = Some (Normal σ')
        ∧ handlers_at σ' w ev = l.
Proof.
  intros Hw Hl Hnot.
  destruct (unlisten_local_splices w this ev h _ σ Hw Hl) as (σ' & Hrun & Hat & _).
  exists σ'. split; [exact Hrun|].
  rewrite Hat, (indexOf_absent _ _ Hnot). apply splice_minus_one.
Qed.

Lemma handlers_of_calls (ev lbl : string) (p : JsVal) (l : list Handler) :
  inv_handler <$> (call_of ev lbl p <$> l) = l.
Proof.
  induction l as [|h l IH]; [reflexivity|].
  rewrite !fmap_cons, IH. reflexivity.
Qed.

(** A function registered with [once] for a local event is called by the
    next [emit], after the handlers registered before it, and is still in
    the list when that dispatch is over. *)
Lemma once_handler_survives_dispatch
    (code : Handler → Envelope → World → Completion) (fuel : nat) (w : Ref)
    (this : WindowObj) (ev : string) (p : JsVal) (h : Handler) (σ : World) :
  windows σ !! w = Some this →
  includes localTauriEvents ev = true →
  Forall (leaves_list code w ev) (handlers_at σ w ev ++ [h]) →
  length (handlers_at σ w ev) < fuel →
  ∃ u σ1 r,
    once w ev h σ = Some (u, σ1)
    ∧ emit code fuel w ev p σ1 = Some r
    ∧ inv_handler <$> invoked r = handlers_at σ w ev ++ [h]
    ∧ handlers_at (final r) w ev = handlers_at σ w ev ++ [h].
Proof.
  intros Hw Hlocal Hquiet Hfuel.
  destruct (handleTauriEvent_appends w this ev h σ Hw Hlocal)
    as (σ1 & Hreg & Hat & Hlabel).
  assert (Hlbl : label_at σ1 w = Some (label this)).
  { rewrite Hlabel. unfold label_at. rewrite Hw. reflexivity. }
  rewrite <- Hat in Hquiet.
  destruct (dispatch_untouched code w ev p (label this) _ Hquiet fuel 0 σ1 Hlbl eq_refl)
    as (r & Hr & _ & Hinv & Hfin & _).
  { rewrite Hat, length_app. simpl. lia. }
  exists (LocalUnlisten w ev h), σ1, r.
  split; [unfold once; rewrite Hreg; reflexivity|].
  split; [unfold emit; rewrite Hlocal; exact Hr|].
  rewrite drop_0 in Hinv. rewrite Hinv, handlers_of_calls, Hfin. auto.
Qed.

Example indexOf_finds_first : JsArray.indexOf [4; 7; 7] 7 = 1%Z.
Proof. reflexivity. Qed.

Example indexOf_missing : JsArray.indexOf [4; 7] 9 = (-1)%Z.
Proof. reflexivity. Qed.

Example splice_at_index : JsArray.splice [4; 7; 7] 1 1 = [4; 7].
Proof. reflexivity. Qed.

Example splice_at_minus_one : JsArray.splice [4; 7; 9] (-1) 1 = [4; 7].
Proof. reflexivity. Qed.

Example splice_empty : JsArray.splice [] (-1) 1 = [].
Proof. reflexivity. Qed.

(** C1 on the code: function 7 is registered with [once] for the created
    event and the event is emitted twice; both dispatches call it, and it is
    still registered afterwards. *)
Theorem once_handler_fires_on_every_emit :
  let '(w, σ0) := Scenario.existing in
  ('(_, σ1) ← once w "tauri://created" 7 σ0;
   r1 ← emit Scenario.quiet 1 w "tauri://created" JsUndefined σ1;
   r2 ← emit Scenario.quiet 1 w "tauri://created" JsUndefined (final r1);
   Some (inv_handler <$> invoked r1, inv_handler <$> invoked r2,
         handlers_at (final r2) w "tauri://created"))
  = Some ([7], [7], [7]).
Proof. vm_compute. reflexivity. Qed.

(** C2 on the code: functions 1 and 2 listen to the created event; the
    unlisten function of 1 is called twice.  The first call removes 1, the
    second one removes 2. *)
Theorem unlisten_twice_removes_another_handler :
  let '(w, σ0) := Scenario.existing in
  ('(u1, σ1) ← listen w "tauri://created" 1 σ0;
   '(u2, σ2) ← listen w "tauri://created" 2 σ1;
   c3 ← unlisten u1 σ2;
   c4 ← unlisten u1 (world_of c3);
   Some (handlers_at σ2 w "tauri://created",
         handlers_at (world_of c3) w "tauri://created",
         handlers_at (world_of c4) w "tauri://created"))
  = Some ([1; 2], [2], []).
Proof. vm_compute. reflexivity. Qed.

(** ** The creation bootstrap *)

Section BootstrapFacts.

Variable code : Handler → Envelope → World → Completion.

(** While the creation command is pending nothing is fired. *)
Lemma creation_pending_fires_nothing (fuel : nat) (w : Ref) (σ : World) :
  creation_settled code fuel w Pending σ = Some (Pending, [], σ).
Proof. reflexivity. Qed.

(** When the command is rejected only the error event is fired, with the
    reason of the rejection. *)
Lemma creation_rejected_fires_error_only (fuel : nat) (w : Ref) (e : JsVal)
    (σ σ' : World) (p : Promise) (fired : list Fired) :
  creation_settled code fuel w (Rejected e) σ = Some (p, fired, σ') →
  fired_event <$> fired = ["tauri://error"]
  ∧ fired_payload <$> fired = [e].
Proof.
  unfold creation_settled. simpl.
  destruct (emit code fuel w "tauri://error" e σ) as [r|]; simpl; [|discriminate].
  intros [= <- <- <-]. split; reflexivity.
Qed.

(** X28: when the creation command is fulfilled and the handlers of the
    created event return normally, leaving their list alone, only the created
    event is fired; its handlers are called in registration order, each with
    an envelope carrying the label of the handle and no payload. *)
Lemma creation_fulfilled_fires_created_only (fuel : nat) (w : Ref) (v : JsVal)
    (lbl : string) (σ : World) :
  label_at σ w = Some lbl →
  Forall (leaves_list code w "tauri://created") (handlers_at σ w "tauri://created") →
  length (handlers_at σ w "tauri://created") ≤ fuel →
  ∃ fired σ',
    creation_settled code fuel w (Fulfilled v) σ
    = Some (Fulfilled JsUndefined, fired, σ')
    ∧ fired_event <$> fired = ["tauri://created"]
    ∧ concat (fired_invoked <$> fired)
      = call_of "tauri://created" lbl JsUndefined
          <$> handlers_at σ w "tauri://created".
Proof.
  intros Hlbl Hquiet Hfuel.
  destruct (dispatch_untouched code w "tauri://created" JsUndefined lbl _ Hquiet
              fuel 0 σ Hlbl eq_refl) as (r & Hr & Hs & Hinv & _); [lia|].
  rewrite drop_0 in Hinv.
  unfold creation_settled, then_created, emit.
  change (includes localTauriEvents "tauri://created") with true.
  cbn match. rewrite Hr. simpl. rewrite Hs. simpl.
  eexists _, _. split; [reflexivity|]. simpl. rewrite app_nil_r. auto.
Qed.

End BootstrapFacts.

(** C5 on the code: [new Window("w1")] with function 1, which throws,
    registered for the created event before the creation command is
    fulfilled.  The rejection of [emit] runs into the [catch] of the same
    chain: the error event is fired after the created event, with the error
    of the handler as its payload. *)
Theorem created_handler_error_fires_both_events :
  let '(w, σ0) := Scenario.creating in
  ('(_, σ1) ← once w "tauri://created" 1 σ0;
   '(_, fired, _) ← creation_settled Scenario.thrower 1 w (Fulfilled JsNull) σ1;
   Some (map cmd (host σ0), map fired_event fired, map fired_payload fired))
  = Some (["plugin:window|create"],
          ["tauri://created"; "tauri://error"],
          [JsUndefined; JsError "boom"]).
Proof. vm_compute. reflexivity. Qed.

(** ** Close negotiation *)

Lemma calls_without_preventDefault (evt : Close.CloseRequestedEvent)
    (cs : list Close.EventCall) :
  Close.CallPreventDefault ∉ cs →
  Close.isPreventDefault (foldl Close.do_call evt cs) = Close.isPreventDefault evt.
Proof.
  revert evt. induction cs as [|c cs IH]; intros evt Hnot; simpl; [reflexivity|].
  apply not_elem_of_cons in Hnot as [Hne Hnot].
  rewrite (IH _ Hnot). destruct c; [contradiction | reflexivity].
Qed.

Lemma flag_stays_set (evt : Close.CloseRequestedEvent) (cs : list Close.EventCall) :
  Close.isPreventDefault evt = true →
  Close.isPreventDefault (foldl Close.do_call evt cs) = true.
Proof.
  revert evt. induction cs as [|c cs IH]; intros evt Hset; simpl; [exact Hset|].
  apply IH. destruct c; [reflexivity | exact Hset].
Qed.

Lemma calls_with_preventDefault (evt : Close.CloseRequestedEvent)
    (cs : list Close.EventCall) :
  Close.CallPreventDefault ∈ cs →
  Close.isPreventDefault (foldl Close.do_call evt cs) = true.
Proof.
  revert evt. induction cs as [|c cs IH]; intros evt Hin; simpl.
  - apply elem_of_nil in Hin. contradiction.
  - apply elem_of_cons in Hin as [<-|Hin].
    + apply flag_stays_set. reflexivity.
    + apply IH. exact Hin.
Qed.

(** Where the close-requested event is not a local one, the callback is
    handed to the remote event subsystem, scoped to the label. *)
Lemma onCloseRequested_registers_remotely (name : string) (w : Ref)
    (this : WindowObj) (callback : Handler) (σ : World) :
  windows σ !! w = Some this →
  includes localTauriEvents name = false →
  Close.onCloseRequested name w callback σ
  = Some (RemoteUnlisten name callback (label this),
          api_call (ApiListen name callback (label this)) σ).
Proof.
  intros Hw Hremote. unfold Close.onCloseRequested, listen, _handleTauriEvent.
  rewrite Hremote, Hw. simpl. rewrite Hw. reflexivity.
Qed.

(** C4, as amended: on a delivery of the close request, when the outcome of
    the handler is fulfilled and the handler never called [preventDefault],
    exactly one close command is sent, for the label of the handle; when the
    handler called [preventDefault] before its outcome was known, no command
    is sent. *)
Theorem close_negotiation (w : Ref) (this : WindowObj)
    (handler : Close.CloseRequestedEvent → Close.HandlerRun) (e : Envelope)
    (σ : World) :
  windows σ !! w = Some this →
  let run := handler (Close.new_CloseRequestedEvent e) in
  ∃ c, Close.deliver w handler e σ = Some c
       ∧ (Close.outcome run = Close.Returns →
          Close.CallPreventDefault ∉ Close.calls run →
          host (world_of c)
          = host σ ++ [{| cmd := "plugin:window|close";
                          args := JsObj [("label", JsStr (label this))] |}])
       ∧ (Close.CallPreventDefault ∈ Close.calls run →
          host (world_of c) = host σ).
Proof.
  intros Hw run. unfold Close.deliver. fold run.
  destruct (Close.outcome run) as [|err| |err] eqn:Hout.
  - destruct (decide (Close.CallPreventDefault ∈ Close.calls run)) as [Hin|Hnot].
    + rewrite (calls_with_preventDefault _ _ Hin). simpl.
      eexists. split; [reflexivity|]. split; [intros _ Hnot; contradiction|].
      reflexivity.
    + rewrite (calls_without_preventDefault _ _ Hnot). simpl.
      unfold Close.close. rewrite Hw. simpl.
      eexists. split; [reflexivity|]. split; [reflexivity|].
      intros Hin; contradiction.
  - eexists. split; [reflexivity|]. split; [discriminate|]. reflexivity.
  - eexists. split; [reflexivity|]. split; [discriminate|]. reflexivity.
  - eexists. split; [reflexivity|]. split; [discriminate|]. reflexivity.
Qed.

Lemma close_negotiation_witness :
  windows Scenario.existing.2 !! Scenario.existing.1
    = Some {| label := "w1"; listeners := ∅ |}
  ∧ (∃ c, Close.deliver Scenario.existing.1 Scenario.agreeing_handler
            Scenario.close_request Scenario.existing.2 = Some c
          ∧ host (world_of c)
            = [{| cmd := "plugin:window|close";
                  args := JsObj [("label", JsStr "w1")] |}])
  ∧ (∃ c, Close.deliver Scenario.existing.1 Scenario.refusing_handler
            Scenario.close_request Scenario.existing.2 = Some c
          ∧ host (world_of c) = []).
Proof.
  assert (H : windows Scenario.existing.2 !! Scenario.existing.1
              = Some {| label := "w1"; listeners := ∅ |}) by (vm_compute; reflexivity).
  split; [exact H|]. split.
  - destruct (close_negotiation _ _ Scenario.agreeing_handler Scenario.close_request
                _ H) as (c & Hc & Hone & _).
    exists c. split; [exact Hc|]. apply Hone; [reflexivity|].
    simpl. intros Hin. apply list_elem_of_singleton in Hin. discriminate.
  - destruct (close_negotiation _ _ Scenario.refusing_handler Scenario.close_request
                _ H) as (c & Hc & _ & Hzero).
    exists c. split; [exact Hc|]. apply Hzero. simpl. apply elem_of_cons. left. reflexivity.
Defined.

(** C4, as stated, fails: a handler whose promise is rejected never called
    [preventDefault], and yet no close command is sent. *)
Lemma rejected_handler_sends_no_close :
  (Close.CallPreventDefault
     ∉ Close.calls (Scenario.failing_handler
                      (Close.new_CloseRequestedEvent Scenario.close_request)))
  ∧ ((λ c, Close.close_commands (world_of c))
       <$> Close.deliver Scenario.existing.1 Scenario.failing_handler
             Scenario.close_request Scenario.existing.2)
    = Some [].
Proof.
  split.
  - simpl. apply not_elem_of_nil.
  - vm_compute. reflexivity.
Qed.

(** ** Instances and their tables *)

Lemma new_Window_ref (lbl : string) (o : list (string * JsVal)) (σ : World) :
  (new_Window lbl o σ).1 = fresh (dom (windows σ)).
Proof. unfold new_Window. destruct (truthy (assoc "skip" o)); reflexivity. Qed.

Lemma new_Window_windows (lbl : string) (o : list (string * JsVal)) (σ : World) :
  windows (new_Window lbl o σ).2
  = <[(new_Window lbl o σ).1 := {| label := lbl; listeners := ∅ |}]> (windows σ).
Proof. unfold new_Window. destruct (truthy (assoc "skip" o)); reflexivity. Qed.

(** The constructor never reuses an object. *)
Lemma new_Window_fresh (lbl : string) (o : list (string * JsVal)) (σ : World) :
  windows σ !! (new_Window lbl o σ).1 = None.
Proof.
  rewrite new_Window_ref. apply not_elem_of_dom. apply is_fresh.
Qed.

Lemma table_set_window_ne (a b : Ref) (o : WindowObj) (σ : World) :
  a ≠ b → table (set_window a o σ) b = table σ b.
Proof.
  intros Hne. unfold table, set_window. simpl.
  rewrite (lookup_insert_ne _ _ _ _ Hne). reflexivity.
Qed.

Lemma handleTauriEvent_frame (a b : Ref) (ev : string) (h : Handler)
    (σ σ' : World) (r : bool) :
  a ≠ b → _handleTauriEvent a ev h σ = Some (r, σ') → table σ' b = table σ b.
Proof.
  intros Hne. unfold _handleTauriEvent.
  destruct (includes localTauriEvents ev);
    destruct (windows σ !! a) as [this|]; simpl; try discriminate;
    intros [= <- <-]; [apply table_set_window_ne; exact Hne | reflexivity].
Qed.

Lemma listen_frame (a b : Ref) (ev : string) (h : Handler) (σ σ' : World)
    (u : UnlistenFn) :
  a ≠ b → listen a ev h σ = Some (u, σ') → table σ' b = table σ b.
Proof.
  intros Hne. unfold listen.
  destruct (_handleTauriEvent a ev h σ) as [[r σ1]|] eqn:Hreg; simpl; [|discriminate].
  pose proof (handleTauriEvent_frame a b ev h σ σ1 r Hne Hreg) as Hsame.
  destruct r; [intros [= <- <-]; exact Hsame|].
  destruct (windows σ1 !! a); simpl; [|discriminate].
  intros [= <- <-]. exact Hsame.
Qed.

Lemma once_frame (a b : Ref) (ev : string) (h : Handler) (σ σ' : World)
    (u : UnlistenFn) :
  a ≠ b → once a ev h σ = Some (u, σ') → table σ' b = table σ b.
Proof.
  intros Hne. unfold once.
  destruct (_handleTauriEvent a ev h σ) as [[r σ1]|] eqn:Hreg; simpl; [|discriminate].
  pose proof (handleTauriEvent_frame a b ev h σ σ1 r Hne Hreg) as Hsame.
  destruct r; [intros [= <- <-]; exact Hsame|].
  destruct (windows σ1 !! a); simpl; [|discriminate].
  intros [= <- <-]. exact Hsame.
Qed.

Lemma unlisten_frame (a b : Ref) (ev : string) (h : Handler) (σ : World)
    (c : Completion) :
  a ≠ b → unlisten (LocalUnlisten a ev h) σ = Some c → table (world_of c) b = table σ b.
Proof.
  intros Hne. unfold unlisten.
  destruct (windows σ !! a) as [this|]; simpl; [|discriminate].
  destruct (listeners this !! ev); intros [= <-]; simpl;
    [apply table_set_window_ne; exact Hne | reflexivity].
Qed.

Section FrameOfDispatch.

Variable code : Handler → Envelope → World → Completion.
Variable b : Ref.
Hypothesis code_frame :
  ∀ (h : Handler) (env : Envelope) (σ : World),
    table (world_of (code h env σ)) b = table σ b.

Lemma dispatch_frame (fuel : nat) (a : Ref) (ev : string) (p : JsVal) :
  ∀ (i : nat) (σ : World) (r : EmitRun),
    dispatch code fuel a ev p i σ = Some r → table (final r) b = table σ b.
Proof.
  induction fuel as [|fuel IH]; intros i σ r; rewrite dispatch_unfold;
    destruct (windows σ !! a) as [this|]; simpl; try discriminate;
    destruct (default [] (listeners this !! ev) !! i) as [h|]; try discriminate;
    try (intros [= <-]; reflexivity).
  pose proof (code_frame h {| env_event := ev; env_id := -1;
                              env_windowLabel := label this; env_payload := p |} σ)
    as Hcode.
  destruct (code h _ σ) as [σ'|e σ']; simpl in Hcode.
  - destruct (dispatch code fuel a ev p (S i) σ') as [r'|] eqn:Hrest; simpl;
      [|discriminate].
    intros [= <-]. simpl. rewrite (IH _ _ _ Hrest). exact Hcode.
  - intros [= <-]. exact Hcode.
Qed.

Lemma emit_frame (fuel : nat) (a : Ref) (ev : string) (p : JsVal) (σ : World)
    (r : EmitRun) :
  emit code fuel a ev p σ = Some r → table (final r) b = table σ b.
Proof.
  unfold emit. destruct (includes localTauriEvents ev); [apply dispatch_frame|].
  destruct (windows σ !! a); simpl; [|discriminate].
  intros [= <-]. reflexivity.
Qed.

End FrameOfDispatch.



(** * Further properties of the module *)

(** ** The validating setters *)

(** X1: a truthy size tagged Logical or Physical passes the guard of
    [setSize]: exactly one [set_size] command is sent, carrying the label of
    the handle, the tag and the width and height of the argument. *)
Theorem setSize_sends_tagged_size (w : Ref) (this : WindowObj) (size : JsVal)
    (σ : World) :
  windows σ !! w = Some this →
  truthy size = true →
  get "type" size = JsStr "Logical" ∨ get "type" size = JsStr "Physical" →
  setSize w size σ
  = Some (Pending,
          invoke "plugin:window|set_size"
            (JsObj [("label", JsStr (label this));
                    ("value", JsObj [("type", get "type" size);
                                     ("data", JsObj [("width", get "width" size);
                                                     ("height", get "height" size)])])])
            σ).
Proof.
  intros Hw Htruthy Htag. unfold setSize. rewrite Hw, Htruthy. simpl.
  destruct Htag as [-> | ->]; reflexivity.
Qed.

Lemma setSize_sends_tagged_size_witness :
  windows Scenario.existing.2 !! 0 = Some Cases.w1
  ∧ truthy Cases.logical_size = true
  ∧ host <$> (snd <$> setSize 0 Cases.logical_size Scenario.existing.2)
    = Some [{| cmd := "plugin:window|set_size";
               args := JsObj [("label", JsStr "w1");
                              ("value", JsObj [("type", JsStr "Logical");
                                               ("data", JsObj [("width", JsNum 600);
                                                               ("height", JsNum 500)])])] |}].
Proof.
  assert (Hw : windows Scenario.existing.2 !! 0 = Some Cases.w1)
    by (vm_compute; reflexivity).
  split; [exact Hw|]. split; [reflexivity|].
  rewrite (setSize_sends_tagged_size 0 Cases.w1 Cases.logical_size _ Hw eq_refl
             (or_introl eq_refl)).
  reflexivity.
Defined.

(** X2: a falsy size ([null], [undefined]) is refused by [setSize] but
    accepted by [setMinSize] and [setMaxSize], which send the value [null]
    to unset the constraint. *)
Theorem falsy_size_unsets_min_and_max (w : Ref) (this : WindowObj) (size : JsVal)
    (σ : World) :
  windows σ !! w = Some this →
  truthy size = false →
  setMinSize w size σ
  = Some (Pending,
          invoke "plugin:window|set_min_size"
            (JsObj [("label", JsStr (label this)); ("value", JsNull)]) σ)
  ∧ setMaxSize w size σ
    = Some (Pending,
            invoke "plugin:window|set_max_size"
              (JsObj [("label", JsStr (label this)); ("value", JsNull)]) σ)
  ∧ setSize w size σ = Some (Rejected (JsError setSize_message), σ).
Proof.
  intros Hw Hfalsy. unfold setMinSize, setMaxSize, setSize.
  rewrite Hw, Hfalsy. simpl. auto.
Qed.

Lemma falsy_size_unsets_min_and_max_witness :
  windows Scenario.existing.2 !! 0 = Some Cases.w1
  ∧ truthy JsNull = false
  ∧ setMinSize 0 JsNull Scenario.existing.2
    = Some (Pending,
            invoke "plugin:window|set_min_size"
              (JsObj [("label", JsStr "w1"); ("value", JsNull)]) Scenario.existing.2).
Proof.
  assert (Hw : windows Scenario.existing.2 !! 0 = Some Cases.w1)
    by (vm_compute; reflexivity).
  split; [exact Hw|]. split; [reflexivity|].
  exact (proj1 (falsy_size_unsets_min_and_max 0 Cases.w1 JsNull _ Hw eq_refl)).
Defined.

(** X3: a truthy size whose tag is neither Logical nor Physical is refused
    by [setMinSize] and [setMaxSize] before anything is sent. *)
Theorem setMinSize_setMaxSize_reject_unknown_tag (w : Ref) (this : WindowObj)
    (size : JsVal) (σ : World) :
  windows σ !! w = Some this →
  truthy size = true →
  get "type" size ≠ JsStr "Logical" →
  get "type" size ≠ JsStr "Physical" →
  setMinSize w size σ = Some (Rejected (JsError setSize_message), σ)
  ∧ setMaxSize w size σ = Some (Rejected (JsError setSize_message), σ).
Proof.
  intros Hw Htruthy HL HP. unfold setMinSize, setMaxSize.
  rewrite Hw, Htruthy. simpl.
  rewrite (is_string_false _ _ HL), (is_string_false _ _ HP). auto.
Qed.

Lemma setMinSize_setMaxSize_reject_unknown_tag_witness :
  windows Scenario.existing.2 !! 0 = Some Cases.w1
  ∧ truthy Scenario.square = true
  ∧ setMinSize 0 Scenario.square Scenario.existing.2
    = Some (Rejected (JsError setSize_message), Scenario.existing.2)
  ∧ setMaxSize 0 Scenario.square Scenario.existing.2
    = Some (Rejected (JsError setSize_message), Scenario.existing.2).
Proof.
  assert (Hw : windows Scenario.existing.2 !! 0 = Some Cases.w1)
    by (vm_compute; reflexivity).
  split; [exact Hw|]. split; [reflexivity|].
  apply (setMinSize_setMaxSize_reject_unknown_tag 0 Cases.w1 Scenario.square _ Hw
           eq_refl); simpl; discriminate.
Defined.

(** X4: [setPosition] and [setCursorPosition] refuse a falsy position and a
    position whose tag is neither Logical nor Physical, with the message for
    positions, before anything is sent. *)
Theorem position_setters_reject (w : Ref) (this : WindowObj) (position : JsVal)
    (σ : World) :
  windows σ !! w = Some this →
  truthy position = false
  ∨ (get "type" position ≠ JsStr "Logical" ∧ get "type" position ≠ JsStr "Physical") →
  setPosition w position σ = Some (Rejected (JsError setPosition_message), σ)
  ∧ setCursorPosition w position σ = Some (Rejected (JsError setPosition_message), σ).
Proof.
  intros Hw Hbad. unfold setPosition, setCursorPosition. rewrite Hw. simpl.
  destruct Hbad as [-> | [HL HP]]; [auto|].
  rewrite (is_string_false _ _ HL), (is_string_false _ _ HP). simpl.
  rewrite orb_true_r. auto.
Qed.

Lemma position_setters_reject_witness :
  windows Scenario.existing.2 !! 0 = Some Cases.w1
  ∧ setPosition 0 JsUndefined Scenario.existing.2
    = Some (Rejected (JsError setPosition_message), Scenario.existing.2)
  ∧ setCursorPosition 0 Scenario.square Scenario.existing.2
    = Some (Rejected (JsError setPosition_message), Scenario.existing.2).
Proof.
  assert (Hw : windows Scenario.existing.2 !! 0 = Some Cases.w1)
    by (vm_compute; reflexivity).
  split; [exact Hw|]. split.
  - exact (proj1 (position_setters_reject 0 Cases.w1 JsUndefined _ Hw
                    (or_introl eq_refl))).
  - apply (position_setters_reject 0 Cases.w1 Scenario.square _ Hw).
    right. split; simpl; discriminate.
Defined.

(** X5: a truthy position tagged Logical or Physical is sent by
    [setPosition] and [setCursorPosition] with its tag and its [x] and [y];
    the two differ in the command only. *)
Theorem position_setters_send (w : Ref) (this : WindowObj) (position : JsVal)
    (σ : World) :
  windows σ !! w = Some this →
  truthy position = true →
  get "type" position = JsStr "Logical" ∨ get "type" position = JsStr "Physical" →
  let value := JsObj [("label", JsStr (label this));
                      ("value", JsObj [("type", get "type" position);
                                       ("data", JsObj [("x", get "x" position);
                                                       ("y", get "y" position)])])] in
  setPosition w position σ
  = Some (Pending, invoke "plugin:window|set_position" value σ)
  ∧ setCursorPosition w position σ
    = Some (Pending, invoke "plugin:window|set_cursor_position" value σ).
Proof.
  intros Hw Htruthy Htag value. unfold setPosition, setCursorPosition.
  rewrite Hw, Htruthy. simpl.
  destruct Htag as [Ht | Ht]; rewrite Ht; simpl; subst value; rewrite Ht; auto.
Qed.

Lemma position_setters_send_witness :
  windows Scenario.existing.2 !! 0 = Some Cases.w1
  ∧ truthy Cases.logical_position = true
  ∧ host <$> (snd <$> setPosition 0 Cases.logical_position Scenario.existing.2)
    = Some [{| cmd := "plugin:window|set_position";
               args := JsObj [("label", JsStr "w1");
                              ("value", JsObj [("type", JsStr "Logical");
                                               ("data", JsObj [("x", JsNum 10);
                                                               ("y", JsNum 20)])])] |}].
Proof.
  assert (Hw : windows Scenario.existing.2 !! 0 = Some Cases.w1)
    by (vm_compute; reflexivity).
  split; [exact Hw|]. split; [reflexivity|].
  rewrite (proj1 (position_setters_send 0 Cases.w1 Cases.logical_position _ Hw
                    eq_refl (or_introl eq_refl))).
  reflexivity.
Defined.

(** X6: [requestUserAttention] always sends exactly one command.  Its value
    is [null] for a falsy request, Critical for the number 1, and
    Informational for every other truthy request, whether or not it is a
    member of the enumeration. *)
Theorem requestUserAttention_value (w : Ref) (this : WindowObj)
    (requestType : JsVal) (σ : World) :
  windows σ !! w = Some this →
  ∃ v, requestUserAttention w requestType σ
       = Some (Pending,
               invoke "plugin:window|request_user_attention"
                 (JsObj [("label", JsStr (label this)); ("value", v)]) σ)
       ∧ (truthy requestType = false → v = JsNull)
       ∧ (truthy requestType = true →
          is_number UserAttentionType_Critical requestType = true →
          v = JsObj [("type", JsStr "Critical")])
       ∧ (truthy requestType = true →
          is_number UserAttentionType_Critical requestType = false →
          v = JsObj [("type", JsStr "Informational")]).
Proof.
  intros Hw. unfold requestUserAttention. rewrite Hw. simpl.
  eexists. split; [reflexivity|].
  destruct (truthy requestType);
    destruct (is_number UserAttentionType_Critical requestType);
    repeat split; intros; try discriminate; reflexivity.
Qed.

Lemma requestUserAttention_value_witness :
  windows Scenario.existing.2 !! 0 = Some Cases.w1
  ∧ host <$> (snd <$> requestUserAttention 0 (JsNum 7) Scenario.existing.2)
    = Some [{| cmd := "plugin:window|request_user_attention";
               args := JsObj [("label", JsStr "w1");
                              ("value", JsObj [("type", JsStr "Informational")])] |}].
Proof.
  assert (Hw : windows Scenario.existing.2 !! 0 = Some Cases.w1)
    by (vm_compute; reflexivity).
  split; [exact Hw|].
  destruct (requestUserAttention_value 0 Cases.w1 (JsNum 7) _ Hw)
    as (v & Hrun & _ & _ & Hinfo).
  rewrite Hrun, (Hinfo eq_refl eq_refl). reflexivity.
Defined.

(** ** Registering and removing local listeners *)

(** What a registration for a local event leaves in the heap. *)
Lemma handleTauriEvent_local (w : Ref) (this : WindowObj) (ev : string)
    (h : Handler) (σ : World) :
  windows σ !! w = Some this →
  includes localTauriEvents ev = true →
  _handleTauriEvent w ev h σ
  = Some (true,
          set_window w {| label := label this;
                          listeners := <[ev := handlers_at σ w ev ++ [h]]> (listeners this) |}
            σ).
Proof.
  intros Hw Hlocal. unfold _handleTauriEvent, handlers_at.
  rewrite Hlocal, Hw. simpl. destruct (listeners this !! ev); reflexivity.
Qed.

Lemma listen_local (w : Ref) (this : WindowObj) (ev : string) (h : Handler)
    (σ : World) :
  windows σ !! w = Some this →
  includes localTauriEvents ev = true →
  listen w ev h σ
  = Some (LocalUnlisten w ev h,
          set_window w {| label := label this;
                          listeners := <[ev := handlers_at σ w ev ++ [h]]> (listeners this) |}
            σ).
Proof.
  intros Hw Hlocal. unfold listen.
  rewrite (handleTauriEvent_local w this ev h σ Hw Hlocal). reflexivity.
Qed.

Lemma handlers_at_set_window (w : Ref) (lbl : string)
    (t : gmap string (list Handler)) (ev : string) (σ : World) :
  handlers_at (set_window w {| label := lbl; listeners := t |} σ) w ev
  = default [] (t !! ev).
Proof. unfold handlers_at, set_window. simpl. rewrite lookup_insert_eq. reflexivity. Qed.

(** X7: for a function that is not yet registered for a local event,
    [listen] followed by the unlisten function it returned puts the list of
    the event back as it was; in between the function is last in the list. *)
Theorem listen_then_unlisten_restores (w : Ref) (this : WindowObj) (ev : string)
    (h : Handler) (σ : World) :
  windows σ !! w = Some this →
  includes localTauriEvents ev = true →
  h ∉ handlers_at σ w ev →
  ∃ u σ1 σ2,
    listen w ev h σ = Some (u, σ1)
    ∧ handlers_at σ1 w ev = handlers_at σ w ev ++ [h]
    ∧ unlisten u σ1 = Some (Normal σ2)
    ∧ handlers_at σ2 w ev = handlers_at σ w ev.
Proof.
  intros Hw Hlocal Hnot.
  pose proof (listen_local w this ev h σ Hw Hlocal) as Hlisten.
  set (this1 := {| label := label this;
                   listeners := <[ev := handlers_at σ w ev ++ [h]]> (listeners this) |})
    in Hlisten.
  destruct (unlisten_local_splices w this1 ev h (handlers_at σ w ev ++ [h])
              (set_window w this1 σ)) as (σ2 & Hun & Hat & _).
  { unfold set_window. simpl. apply lookup_insert_eq. }
  { apply lookup_insert_eq. }
  exists (LocalUnlisten w ev h), (set_window w this1 σ), σ2.
  split; [exact Hlisten|].
  split; [unfold this1; rewrite handlers_at_set_window, lookup_insert_eq; reflexivity|].
  split; [exact Hun|].
  rewrite Hat, (indexOf_first _ [] _ Hnot), splice_one_at. apply app_nil_r.
Qed.

Lemma listen_then_unlisten_restores_witness :
  windows Scenario.two_listeners !! 0
    = Some {| label := "w1"; listeners := {["tauri://created" := [1; 2]]} |}
  ∧ (5 ∉ handlers_at Scenario.two_listeners 0 "tauri://created")
  ∧ ∃ u σ1 σ2,
      listen 0 "tauri://created" 5 Scenario.two_listeners = Some (u, σ1)
      ∧ handlers_at σ1 0 "tauri://created"
        = handlers_at Scenario.two_listeners 0 "tauri://created" ++ [5]
      ∧ unlisten u σ1 = Some (Normal σ2)
      ∧ handlers_at σ2 0 "tauri://created"
        = handlers_at Scenario.two_listeners 0 "tauri://created".
Proof.
  assert (Hw : windows Scenario.two_listeners !! 0
               = Some {| label := "w1"; listeners := {["tauri://created" := [1; 2]]} |})
    by (vm_compute; reflexivity).
  assert (Hnot : 5 ∉ handlers_at Scenario.two_listeners 0 "tauri://created").
  { replace (handlers_at Scenario.two_listeners 0 "tauri://created") with [1; 2]
      by (vm_compute; reflexivity).
    intros Hin. repeat (apply elem_of_cons in Hin as [Hin|Hin]; [discriminate|]).
    apply elem_of_nil in Hin. exact Hin. }
  split; [exact Hw|]. split; [exact Hnot|].
  exact (listen_then_unlisten_restores 0 _ "tauri://created" 5 _ Hw eq_refl Hnot).
Defined.

(** X8: when the function is already registered, [listen] followed by the
    unlisten function it returned removes the earlier registration, not the
    new one: the function ends up last, behind the handlers it used to
    precede. *)
Theorem listen_then_unlisten_moves_duplicate (w : Ref) (this : WindowObj)
    (ev : string) (h : Handler) (l1 l2 : list Handler) (σ : World) :
  windows σ !! w = Some this →
  includes localTauriEvents ev = true →
  handlers_at σ w ev = l1 ++ h :: l2 →
  h ∉ l1 →
  ∃ u σ1 σ2,
    listen w ev h σ = Some (u, σ1)
    ∧ unlisten u σ1 = Some (Normal σ2)
    ∧ handlers_at σ2 w ev = l1 ++ l2 ++ [h].
Proof.
  intros Hw Hlocal Hl Hnot.
  pose proof (listen_local w this ev h σ Hw Hlocal) as Hlisten.
  set (this1 := {| label := label this;
                   listeners := <[ev := handlers_at σ w ev ++ [h]]> (listeners this) |})
    in Hlisten.
  destruct (unlisten_local_splices w this1 ev h (handlers_at σ w ev ++ [h])
              (set_window w this1 σ)) as (σ2 & Hun & Hat & _).
  { unfold set_window. simpl. apply lookup_insert_eq. }
  { apply lookup_insert_eq. }
  exists (LocalUnlisten w ev h), (set_window w this1 σ), σ2.
  split; [exact Hlisten|]. split; [exact Hun|].
  rewrite Hat, Hl, <- (assoc_L (++) l1), <- app_comm_cons.
  rewrite (indexOf_first _ _ _ Hnot). apply splice_one_at.
Qed.

Lemma listen_then_unlisten_moves_duplicate_witness :
  handlers_at Scenario.two_listeners 0 "tauri://created" = [] ++ 1 :: [2]
  ∧ ∃ u σ1 σ2,
      listen 0 "tauri://created" 1 Scenario.two_listeners = Some (u, σ1)
      ∧ unlisten u σ1 = Some (Normal σ2)
      ∧ handlers_at σ2 0 "tauri://created" = [2; 1].
Proof.
  assert (Hw : windows Scenario.two_listeners !! 0
               = Some {| label := "w1"; listeners := {["tauri://created" := [1; 2]]} |})
    by (vm_compute; reflexivity).
  assert (Hl : handlers_at Scenario.two_listeners 0 "tauri://created" = [] ++ 1 :: [2])
    by (vm_compute; reflexivity).
  split; [exact Hl|].
  exact (listen_then_unlisten_moves_duplicate 0 _ "tauri://created" 1 [] [2] _
           Hw eq_refl Hl (not_elem_of_nil 1)).
Defined.

Lemma unlisten_removes_first_occurrence_witness :
  windows Scenario.three_listeners !! 0
    = Some {| label := "w1"; listeners := {["tauri://created" := [2; 1; 3]]} |}
  ∧ ∃ σ', unlisten (LocalUnlisten 0 "tauri://created" 1) Scenario.three_listeners
          = Some (Normal σ')
          ∧ handlers_at σ' 0 "tauri://created" = [2; 3].
Proof.
  assert (Hw : windows Scenario.three_listeners !! 0
               = Some {| label := "w1";
                         listeners := {["tauri://created" := [2; 1; 3]]} |})
    by (vm_compute; reflexivity).
  split; [exact Hw|].
  apply (unlisten_removes_first_occurrence 0 _ "tauri://created" 1 [2] [3] _ Hw).
  - apply lookup_singleton_eq.
  - intros Hin. apply list_elem_of_singleton in Hin. discriminate.
Defined.

Lemma set_entry_other (w : Ref) (this : WindowObj) (ev ev' : string)
    (l : list Handler) (σ : World) :
  windows σ !! w = Some this →
  ev' ≠ ev →
  handlers_at (set_window w {| label := label this;
                               listeners := <[ev := l]> (listeners this) |} σ) w ev'
  = handlers_at σ w ev'
  ∧ label_at (set_window w {| label := label this;
                              listeners := <[ev := l]> (listeners this) |} σ) w
    = label_at σ w.
Proof.
  intros Hw Hne. rewrite handlers_at_set_window.
  rewrite (lookup_insert_ne _ _ _ _ (not_eq_sym Hne)).
  unfold handlers_at, label_at, set_window. simpl.
  rewrite lookup_insert_eq, Hw. auto.
Qed.

Lemma handleTauriEvent_other_event (w : Ref) (ev ev' : string) (h : Handler)
    (σ σ' : World) (r : bool) :
  ev' ≠ ev →
  _handleTauriEvent w ev h σ = Some (r, σ') →
  handlers_at σ' w ev' = handlers_at σ w ev' ∧ label_at σ' w = label_at σ w.
Proof.
  intros Hne. unfold _handleTauriEvent.
  destruct (includes localTauriEvents ev);
    destruct (windows σ !! w) as [this|] eqn:Hw; simpl; try discriminate;
    intros [= <- <-]; [|auto].
  apply set_entry_other; assumption.
Qed.

(** X10: the lists of a handle are kept per event: registering with [listen]
    or [once] for one event, or calling the unlisten function of a listener
    of that event, leaves the list of every other event, and the label of
    the handle, as they were. *)
Theorem local_registration_is_per_event (w : Ref) (ev ev' : string) (h : Handler)
    (σ : World) :
  ev' ≠ ev →
  (∀ u σ', listen w ev h σ = Some (u, σ') →
           handlers_at σ' w ev' = handlers_at σ w ev' ∧ label_at σ' w = label_at σ w)
  ∧ (∀ u σ', once w ev h σ = Some (u, σ') →
             handlers_at σ' w ev' = handlers_at σ w ev' ∧ label_at σ' w = label_at σ w)
  ∧ (∀ c, unlisten (LocalUnlisten w ev h) σ = Some c →
          handlers_at (world_of c) w ev' = handlers_at σ w ev'
          ∧ label_at (world_of c) w = label_at σ w).
Proof.
  intros Hne. split; [|split].
  - intros u σ'. unfold listen.
    destruct (_handleTauriEvent w ev h σ) as [[r σ1]|] eqn:Hreg; simpl; [|discriminate].
    pose proof (handleTauriEvent_other_event w ev ev' h σ σ1 r Hne Hreg) as Hsame.
    destruct r; [intros [= <- <-]; exact Hsame|].
    destruct (windows σ1 !! w); simpl; [|discriminate].
    intros [= <- <-]. exact Hsame.
  - intros u σ'. unfold once.
    destruct (_handleTauriEvent w ev h σ) as [[r σ1]|] eqn:Hreg; simpl; [|discriminate].
    pose proof (handleTauriEvent_other_event w ev ev' h σ σ1 r Hne Hreg) as Hsame.
    destruct r; [intros [= <- <-]; exact Hsame|].
    destruct (windows σ1 !! w); simpl; [|discriminate].
    intros [= <- <-]. exact Hsame.
  - intros c. unfold unlisten.
    destruct (windows σ !! w) as [this|] eqn:Hw; simpl; [|discriminate].
    destruct (listeners this !! ev); intros [= <-]; simpl; [|auto].
    apply set_entry_other; assumption.
Qed.

Lemma local_registration_is_per_event_witness :
  let σ' := Scenario.after_listen 0 "tauri://error" 4 Scenario.two_listeners in
  "tauri://created" ≠ "tauri://error"
  ∧ listen 0 "tauri://error" 4 Scenario.two_listeners
    = Some (LocalUnlisten 0 "tauri://error" 4, σ')
  ∧ handlers_at σ' 0 "tauri://created"
    = handlers_at Scenario.two_listeners 0 "tauri://created"
  ∧ label_at σ' 0 = label_at Scenario.two_listeners 0.
Proof.
  intros σ'.
  assert (Hne : "tauri://created" ≠ "tauri://error") by discriminate.
  assert (Hrun : listen 0 "tauri://error" 4 Scenario.two_listeners
                 = Some (LocalUnlisten 0 "tauri://error" 4, σ'))
    by (vm_compute; reflexivity).
  split; [exact Hne|]. split; [exact Hrun|].
  destruct (local_registration_is_per_event 0 "tauri://error" "tauri://created" 4
              Scenario.two_listeners Hne) as (Hlisten & _ & _).
  exact (Hlisten _ _ Hrun).
Defined.

(** Whatever the client functions leave alone, the loop leaves alone. *)
Lemma dispatch_preserves {A : Type} (obs : World → A)
    (code : Handler → Envelope → World → Completion) :
  (∀ h env σ, obs (world_of (code h env σ)) = obs σ) →
  ∀ (fuel : nat) (w : Ref) (ev : string) (p : JsVal) (i : nat) (σ : World)
    (r : EmitRun),
    dispatch code fuel w ev p i σ = Some r → obs (final r) = obs σ.
Proof.
  intros Hcode fuel w ev p.
  induction fuel as [|fuel IH]; intros i σ r; rewrite dispatch_unfold;
    destruct (windows σ !! w) as [this|]; simpl; try discriminate;
    destruct (default [] (listeners this !! ev) !! i) as [h|]; try discriminate;
    try (intros [= <-]; reflexivity).
  pose proof (Hcode h {| env_event := ev; env_id := -1;
                         env_windowLabel := label this; env_payload := p |} σ)
    as Hstep.
  destruct (code h _ σ) as [σ'|e σ']; simpl in Hstep.
  - destruct (dispatch code fuel w ev p (S i) σ') as [r'|] eqn:Hrest; simpl;
      [|discriminate].
    intros [= <-]. simpl. rewrite (IH _ _ _ Hrest). exact Hstep.
  - intros [= <-]. exact Hstep.
Qed.

(** X11: a local event never reaches the host or the remote event
    subsystem.  [listen] and [once] return the local closure, and they, the
    closure and, as far as the handlers it calls send nothing, [emit] leave
    the lists of commands and of event API calls as they were. *)
Theorem local_events_stay_local (code : Handler → Envelope → World → Completion)
    (w : Ref) (ev : string) (h : Handler) (σ : World) :
  includes localTauriEvents ev = true →
  (∀ u σ', listen w ev h σ = Some (u, σ') →
           u = LocalUnlisten w ev h ∧ host σ' = host σ ∧ eventApi σ' = eventApi σ)
  ∧ (∀ u σ', once w ev h σ = Some (u, σ') →
             u = LocalUnlisten w ev h ∧ host σ' = host σ ∧ eventApi σ' = eventApi σ)
  ∧ (∀ c, unlisten (LocalUnlisten w ev h) σ = Some c →
          host (world_of c) = host σ ∧ eventApi (world_of c) = eventApi σ)
  ∧ (∀ fuel p r,
       (∀ h' env σ', host (world_of (code h' env σ')) = host σ'
                     ∧ eventApi (world_of (code h' env σ')) = eventApi σ') →
       emit code fuel w ev p σ = Some r →
       host (final r) = host σ ∧ eventApi (final r) = eventApi σ).
Proof.
  intros Hlocal. split; [|split; [|split]].
  - intros u σ'. unfold listen, _handleTauriEvent. rewrite Hlocal.
    destruct (windows σ !! w); simpl; [|discriminate].
    intros [= <- <-]. auto.
  - intros u σ'. unfold once, _handleTauriEvent. rewrite Hlocal.
    destruct (windows σ !! w); simpl; [|discriminate].
    intros [= <- <-]. auto.
  - intros c. unfold unlisten.
    destruct (windows σ !! w) as [this|]; simpl; [|discriminate].
    destruct (listeners this !! ev); intros [= <-]; auto.
  - intros fuel p r Hcode. unfold emit. rewrite Hlocal. intros Hrun.
    assert (Hboth : (λ s, (host s, eventApi s)) (final r)
                    = (λ s, (host s, eventApi s)) σ).
    { apply (dispatch_preserves (λ s, (host s, eventApi s)) code) in Hrun;
        [exact Hrun|].
      intros h' env σ'. destruct (Hcode h' env σ') as [-> ->]. reflexivity. }
    simpl in Hboth. injection Hboth as -> ->. auto.
Qed.

Lemma local_events_stay_local_witness :
  let r := {| settled := Fulfilled JsUndefined;
              invoked := call_of "tauri://created" "w1" JsNull <$> [2; 1; 3];
              final := Scenario.three_listeners |} in
  includes localTauriEvents "tauri://created" = true
  ∧ emit Scenario.quiet 3 0 "tauri://created" JsNull Scenario.three_listeners = Some r
  ∧ host (final r) = host Scenario.three_listeners
  ∧ eventApi (final r) = eventApi Scenario.three_listeners.
Proof.
  intros r.
  assert (Hrun : emit Scenario.quiet 3 0 "tauri://created" JsNull
                   Scenario.three_listeners = Some r) by (vm_compute; reflexivity).
  split; [reflexivity|]. split; [exact Hrun|].
  destruct (local_events_stay_local Scenario.quiet 0 "tauri://created" 9
              Scenario.three_listeners eq_refl) as (_ & _ & _ & Hemit).
  exact (Hemit 3 JsNull r (λ _ _ _, conj eq_refl eq_refl) Hrun).
Defined.

(** X12: an event that is not one of the two local names never touches the
    table of the handle.  [listen], [once] and [emit] each make exactly one
    call to the remote event subsystem, scoped to the label of the handle,
    and [emit] calls no handler itself. *)
Theorem remote_events_bypass_table (code : Handler → Envelope → World → Completion)
    (fuel : nat) (w : Ref) (this : WindowObj) (ev : string) (h : Handler)
    (p : JsVal) (σ : World) :
  windows σ !! w = Some this →
  includes localTauriEvents ev = false →
  listen w ev h σ
  = Some (RemoteUnlisten ev h (label this),
          api_call (ApiListen ev h (label this)) σ)
  ∧ once w ev h σ
    = Some (RemoteUnlisten ev h (label this),
            api_call (ApiOnce ev h (label this)) σ)
  ∧ emit code fuel w ev p σ
    = Some {| settled := Pending; invoked := [];
              final := api_call (ApiEmit ev p (label this)) σ |}
  ∧ windows (api_call (ApiEmit ev p (label this)) σ) = windows σ.
Proof.
  intros Hw Hremote. unfold listen, once, emit, _handleTauriEvent.
  rewrite Hremote, Hw. simpl. rewrite Hw. simpl. auto.
Qed.

Lemma remote_events_bypass_table_witness :
  windows Scenario.two_listeners !! 0
    = Some {| label := "w1"; listeners := {["tauri://created" := [1; 2]]} |}
  ∧ includes localTauriEvents "tauri://resize" = false
  ∧ emit Scenario.thrower 0 0 "tauri://resize" JsNull Scenario.two_listeners
    = Some {| settled := Pending; invoked := [];
              final := api_call (ApiEmit "tauri://resize" JsNull "w1")
                         Scenario.two_listeners |}.
Proof.
  assert (Hw : windows Scenario.two_listeners !! 0
               = Some {| label := "w1"; listeners := {["tauri://created" := [1; 2]]} |})
    by (vm_compute; reflexivity).
  split; [exact Hw|]. split; [reflexivity|].
  destruct (remote_events_bypass_table Scenario.thrower 0 0 _ "tauri://resize" 1
              JsNull Scenario.two_listeners Hw eq_refl) as (_ & _ & Hemit & _).
  exact Hemit.
Defined.

(** The envelopes built by the loop. *)
Lemma dispatch_envelopes (code : Handler → Envelope → World → Completion)
    (fuel : nat) (w : Ref) (ev : string) (p : JsVal) :
  ∀ (i : nat) (σ : World) (r : EmitRun) (inv : Invocation),
    dispatch code fuel w ev p i σ = Some r →
    inv ∈ invoked r →
    env_event (inv_envelope inv) = ev
    ∧ env_id (inv_envelope inv) = (-1)%Z
    ∧ env_payload (inv_envelope inv) = p.
Proof.
  induction fuel as [|fuel IH]; intros i σ r inv; rewrite dispatch_unfold;
    destruct (windows σ !! w) as [this|]; simpl; try discriminate;
    destruct (default [] (listeners this !! ev) !! i) as [h|]; try discriminate;
    try (intros [= <-] Hin; simpl in Hin; apply elem_of_nil in Hin; contradiction).
  destruct (code h _ σ) as [σ'|e σ'].
  - destruct (dispatch code fuel w ev p (S i) σ') as [r'|] eqn:Hrest; simpl;
      [|discriminate].
    intros [= <-] Hin. simpl in Hin.
    apply elem_of_cons in Hin as [-> | Hin]; [simpl; auto|].
    exact (IH _ _ _ _ Hrest Hin).
  - intros [= <-] Hin. simpl in Hin.
    apply list_elem_of_singleton in Hin as ->. simpl. auto.
Qed.

(** X13: whatever the handlers do, every handler called by a local [emit]
    receives an envelope with the name of the event emitted, the id [-1] and
    the payload given to [emit]. *)
Theorem emit_envelope_shape (code : Handler → Envelope → World → Completion)
    (fuel : nat) (w : Ref) (ev : string) (p : JsVal) (σ : World) (r : EmitRun)
    (inv : Invocation) :
  includes localTauriEvents ev = true →
  emit code fuel w ev p σ = Some r →
  inv ∈ invoked r →
  env_event (inv_envelope inv) = ev
  ∧ env_id (inv_envelope inv) = (-1)%Z
  ∧ env_payload (inv_envelope inv) = p.
Proof.
  intros Hlocal. unfold emit. rewrite Hlocal. apply dispatch_envelopes.
Qed.

Lemma emit_envelope_shape_witness :
  let inv := call_of "tauri://created" "w1" (JsStr "ready") 2 in
  let r := {| settled := Fulfilled JsUndefined;
              invoked := call_of "tauri://created" "w1" (JsStr "ready") <$> [1; 2];
              final := Scenario.two_listeners |} in
  emit Scenario.quiet 2 0 "tauri://created" (JsStr "ready") Scenario.two_listeners
  = Some r
  ∧ inv ∈ invoked r
  ∧ env_event (inv_envelope inv) = "tauri://created"
  ∧ env_id (inv_envelope inv) = (-1)%Z
  ∧ env_payload (inv_envelope inv) = JsStr "ready".
Proof.
  intros inv r.
  assert (Hrun : emit Scenario.quiet 2 0 "tauri://created" (JsStr "ready")
                   Scenario.two_listeners = Some r) by (vm_compute; reflexivity).
  assert (Hin : inv ∈ invoked r).
  { simpl. apply elem_of_cons. right. apply elem_of_cons. left. reflexivity. }
  split; [exact Hrun|]. split; [exact Hin|].
  exact (emit_envelope_shape Scenario.quiet 2 0 "tauri://created" (JsStr "ready")
           Scenario.two_listeners r inv eq_refl Hrun Hin).
Defined.

Lemma splice_sublist (l : list Handler) (start deleteCount : Z) :
  JsArray.splice l start deleteCount `sublist_of` l.
Proof.
  unfold JsArray.splice.
  set (len := Z.of_nat (length l)).
  set (a := if (start <? 0)%Z then Z.max (len + start) 0 else Z.min start len).
  set (d := Z.min (Z.max deleteCount 0) (len - a)).
  assert (Ha : (0 ≤ a ≤ len)%Z).
  { unfold a, len. destruct (Z.ltb_spec start 0); lia. }
  assert (Hd : (0 ≤ d)%Z) by (unfold d; lia).
  replace (Z.to_nat (a + d)) with (Z.to_nat a + Z.to_nat d) by lia.
  rewrite <- drop_drop.
  rewrite <- (take_drop (Z.to_nat a) l) at 3.
  apply sublist_app; [reflexivity | apply sublist_drop].
Qed.

Lemma unlisten_times_local (n : nat) (w : Ref) (ev : string) (h : Handler) :
  ∀ (σ : World) (this : WindowObj) (l : list Handler),
    windows σ !! w = Some this →
    listeners this !! ev = Some l →
    ∃ σ', unlisten_times n (LocalUnlisten w ev h) σ = Some (Normal σ')
          ∧ handlers_at σ' w ev `sublist_of` l
          ∧ host σ' = host σ.
Proof.
  induction n as [|n IH]; intros σ this l Hw Hl.
  - exists σ. split; [reflexivity|]. split; [|reflexivity].
    unfold handlers_at. rewrite Hw, Hl. reflexivity.
  - set (l' := JsArray.splice l (JsArray.indexOf l h) 1).
    set (this' := {| label := label this; listeners := <[ev := l']> (listeners this) |}).
    assert (Hstep : unlisten (LocalUnlisten w ev h) σ
                    = Some (Normal (set_window w this' σ))).
    { unfold unlisten. rewrite Hw. simpl. rewrite Hl. reflexivity. }
    destruct (IH (set_window w this' σ) this' l') as (σ' & Hrun & Hsub & Hhost).
    { unfold set_window. simpl. apply lookup_insert_eq. }
    { apply lookup_insert_eq. }
    exists σ'. cbn [unlisten_times]. rewrite Hstep. simpl.
    split; [exact Hrun|]. split; [|exact Hhost].
    etrans; [exact Hsub | apply splice_sublist].
Qed.

(** X14: the unlisten function [listen] or [once] returned for a local event
    can be called any number of times: no call throws, and the handlers left
    are always among those there were, in the same relative order; nothing is
    added and nothing is sent. *)
Theorem local_unlisten_never_throws (n : nat) (w : Ref) (ev : string) (h : Handler)
    (σ σ1 : World) (u : UnlistenFn) :
  includes localTauriEvents ev = true →
  listen w ev h σ = Some (u, σ1) ∨ once w ev h σ = Some (u, σ1) →
  ∃ σ', unlisten_times n u σ1 = Some (Normal σ')
        ∧ handlers_at σ' w ev `sublist_of` handlers_at σ1 w ev
        ∧ host σ' = host σ1.
Proof.
  intros Hlocal Hreg.
  assert (Hlisten : listen w ev h σ = Some (u, σ1)).
  { destruct Hreg as [H|H]; [exact H|].
    rewrite <- (once_local_is_listen _ _ _ _ Hlocal). exact H. }
  destruct (windows σ !! w) as [this|] eqn:Hw.
  - rewrite (listen_local w this ev h σ Hw Hlocal) in Hlisten.
    injection Hlisten as <- <-.
    rewrite handlers_at_set_window, lookup_insert_eq.
    apply (unlisten_times_local n w ev h _
             {| label := label this;
                listeners := <[ev := handlers_at σ w ev ++ [h]]> (listeners this) |}).
    + unfold set_window. simpl. apply lookup_insert_eq.
    + apply lookup_insert_eq.
  - unfold listen, _handleTauriEvent in Hlisten. rewrite Hw in Hlisten.
    discriminate.
Qed.

Lemma local_unlisten_never_throws_witness :
  let σ1 := Scenario.after_listen 0 "tauri://created" 3 Scenario.two_listeners in
  includes localTauriEvents "tauri://created" = true
  ∧ listen 0 "tauri://created" 3 Scenario.two_listeners
    = Some (LocalUnlisten 0 "tauri://created" 3, σ1)
  ∧ ∃ σ', unlisten_times 5 (LocalUnlisten 0 "tauri://created" 3) σ1 = Some (Normal σ')
          ∧ handlers_at σ' 0 "tauri://created" `sublist_of` handlers_at σ1 0 "tauri://created"
          ∧ host σ' = host σ1.
Proof.
  intros σ1.
  assert (Hrun : listen 0 "tauri://created" 3 Scenario.two_listeners
                 = Some (LocalUnlisten 0 "tauri://created" 3, σ1))
    by (vm_compute; reflexivity).
  split; [reflexivity|]. split; [exact Hrun|].
  exact (local_unlisten_never_throws 5 0 "tauri://created" 3 _ _ _ eq_refl
           (or_introl Hrun)).
Defined.

(** ** The constructor and the handles to existing windows *)

Lemma assoc_set_field_eq (k : string) (v : JsVal) (fields : list (string * JsVal)) :
  assoc k (set_field k v fields) = v.
Proof.
  induction fields as [|[k' v'] rest IH]; simpl.
  - rewrite String.eqb_refl. reflexivity.
  - destruct (String.eqb k k') eqn:E; simpl; rewrite E; [reflexivity | exact IH].
Qed.

Lemma assoc_set_field_ne (k k' : string) (v : JsVal) (fields : list (string * JsVal)) :
  k' ≠ k → assoc k' (set_field k v fields) = assoc k' fields.
Proof.
  intros Hne. induction fields as [|[k0 v0] rest IH]; simpl.
  - apply String.eqb_neq in Hne. rewrite Hne. reflexivity.
  - destruct (String.eqb k k0) eqn:E; simpl.
    + apply String.eqb_eq in E as <-.
      apply String.eqb_neq in Hne. rewrite Hne. reflexivity.
    + rewrite IH. reflexivity.
Qed.

(** X15: a constructor call with [skip] set sends nothing.  Without [skip] it
    sends exactly one create command; the options sent carry the label given
    to the constructor, also when the options object has a label of its own,
    and every other option as it was given. *)
Theorem new_Window_create_command (lbl : string) (options : list (string * JsVal))
    (σ : World) :
  (truthy (assoc "skip" options) = true →
   host (new_Window lbl options σ).2 = host σ)
  ∧ (truthy (assoc "skip" options) = false →
     ∃ sent,
       host (new_Window lbl options σ).2
       = host σ ++ [{| cmd := "plugin:window|create";
                       args := JsObj [("options", JsObj sent)] |}]
       ∧ assoc "label" sent = JsStr lbl
       ∧ ∀ k, k ≠ "label" → assoc k sent = assoc k options).
Proof.
  unfold new_Window. split; intros Hskip; rewrite Hskip; simpl; [reflexivity|].
  eexists. split; [reflexivity|]. split.
  - apply assoc_set_field_eq.
  - intros k Hk. apply assoc_set_field_ne. exact Hk.
Qed.

Lemma new_Window_create_command_witness :
  let options := [("label", JsStr "other"); ("url", JsStr "index.html")] in
  truthy (assoc "skip" options) = false
  ∧ host (new_Window "w1" options empty_world).2
    = [{| cmd := "plugin:window|create";
          args := JsObj [("options", JsObj [("label", JsStr "w1");
                                            ("url", JsStr "index.html")])] |}]
  ∧ host (new_Window "w1" [("skip", JsBool true)] empty_world).2 = [].
Proof.
  intros options. split; [reflexivity|]. split; [reflexivity|].
  exact (proj1 (new_Window_create_command "w1" [("skip", JsBool true)] empty_world)
           eq_refl).
Defined.

(** X16: the constructor never reuses or changes an object: the handle it
    returns did not exist before, starts with the label given and an empty
    table, and every other handle keeps its label and its listeners. *)
Theorem new_Window_allocates (lbl : string) (options : list (string * JsVal))
    (σ : World) :
  windows σ !! (new_Window lbl options σ).1 = None
  ∧ windows (new_Window lbl options σ).2 !! (new_Window lbl options σ).1
    = Some {| label := lbl; listeners := ∅ |}
  ∧ (∀ w ev, w ≠ (new_Window lbl options σ).1 →
             windows (new_Window lbl options σ).2 !! w = windows σ !! w
             ∧ handlers_at (new_Window lbl options σ).2 w ev = handlers_at σ w ev)
  ∧ eventApi (new_Window lbl options σ).2 = eventApi σ.
Proof.
  split; [apply new_Window_fresh|].
  split; [rewrite new_Window_windows; apply lookup_insert_eq|].
  split.
  - intros w ev Hne.
    assert (Hsame : windows (new_Window lbl options σ).2 !! w = windows σ !! w).
    { rewrite new_Window_windows. apply lookup_insert_ne. auto. }
    split; [exact Hsame|]. unfold handlers_at. rewrite Hsame. reflexivity.
  - unfold new_Window. destruct (truthy (assoc "skip" options)); reflexivity.
Qed.

(** The constructor with [skip] set: a new object and nothing else. *)
Lemma new_Window_skip (lbl : string) (σ : World) :
  new_Window lbl [("skip", JsBool true)] σ
  = (fresh (dom (windows σ)),
     set_window (fresh (dom (windows σ))) {| label := lbl; listeners := ∅ |} σ).
Proof. reflexivity. Qed.

Lemma fresh_window_unused (σ : World) : windows σ !! fresh (dom (windows σ)) = None.
Proof. apply not_elem_of_dom. apply is_fresh. Qed.

(** What [new_handles] builds: one new object per label, in order. *)
Lemma new_handles_spec (labels : list string) :
  ∀ σ : World,
    Forall2 (λ w lbl, windows (new_handles labels σ).2 !! w
                      = Some {| label := lbl; listeners := ∅ |})
      (new_handles labels σ).1 labels
    ∧ NoDup (new_handles labels σ).1
    ∧ Forall (λ w, windows σ !! w = None) (new_handles labels σ).1
    ∧ (∀ w o, windows σ !! w = Some o → windows (new_handles labels σ).2 !! w = Some o)
    ∧ host (new_handles labels σ).2 = host σ
    ∧ eventApi (new_handles labels σ).2 = eventApi σ.
Proof.
  induction labels as [|lbl rest IH]; intros σ.
  - simpl. repeat split; auto using NoDup_nil_2.
  - cbn [new_handles]. rewrite new_Window_skip.
    pose proof (fresh_window_unused σ) as Hfresh.
    set (w := fresh (dom (windows σ))) in *.
    set (σ1 := set_window w {| label := lbl; listeners := ∅ |} σ).
    assert (Hnew : windows σ1 !! w = Some {| label := lbl; listeners := ∅ |})
      by apply lookup_insert_eq.
    assert (Hframe : ∀ w', w' ≠ w → windows σ1 !! w' = windows σ !! w').
    { intros w' Hne. apply lookup_insert_ne. auto. }
    destruct (IH σ1) as (Hobjs & Hnodup & Hfresh1 & Hkeep & Hhost1 & Hapi1).
    destruct (new_handles rest σ1) as [ws σ2] eqn:Hrest. cbn [fst snd] in *.
    assert (Hnotin : w ∉ ws).
    { intros Hin. rewrite Forall_forall in Hfresh1.
      rewrite (Hfresh1 w Hin) in Hnew. discriminate. }
    split; [constructor; [apply Hkeep; exact Hnew | exact Hobjs]|].
    split; [apply NoDup_cons_2; assumption|].
    split.
    { constructor; [exact Hfresh|].
      rewrite Forall_forall in Hfresh1 |- *. intros w' Hin.
      assert (Hne : w' ≠ w) by (intros ->; contradiction).
      rewrite <- (Hframe w' Hne). apply Hfresh1. exact Hin. }
    split.
    { intros w' o Ho. apply Hkeep.
      assert (Hne : w' ≠ w) by (intros ->; rewrite Hfresh in Ho; discriminate).
      rewrite (Hframe w' Hne). exact Ho. }
    split; [rewrite Hhost1; reflexivity | rewrite Hapi1; reflexivity].
Qed.

(** X17: [getAll] gives one new handle per window the host lists, in the
    order of the list, each with the label listed and an empty table; the
    handles are pairwise distinct, none is an object that existed, existing
    objects are kept, and nothing is sent to the host. *)
Theorem getAll_handles (meta : Metadata) (σ : World) :
  Forall2 (λ w lbl, windows (getAll meta σ).2 !! w
                    = Some {| label := lbl; listeners := ∅ |})
    (getAll meta σ).1 (meta_windows meta)
  ∧ NoDup (getAll meta σ).1
  ∧ Forall (λ w, windows σ !! w = None) (getAll meta σ).1
  ∧ (∀ w o, windows σ !! w = Some o → windows (getAll meta σ).2 !! w = Some o)
  ∧ host (getAll meta σ).2 = host σ.
Proof.
  unfold getAll.
  destruct (new_handles_spec (meta_windows meta) σ) as (H1 & H2 & H3 & H4 & H5 & _).
  auto.
Qed.

Lemma existsb_has_label (σ : World) (lbl : string) (ws : list Ref)
    (labels : list string) :
  Forall2 (λ w l, windows σ !! w = Some {| label := l; listeners := ∅ |}) ws labels →
  existsb (has_label σ lbl) ws = true ↔ lbl ∈ labels.
Proof.
  induction 1 as [|w l ws labels Hw _ IH]; simpl.
  - rewrite elem_of_nil. split; [discriminate | contradiction].
  - rewrite orb_true_iff, elem_of_cons, IH. unfold has_label. rewrite Hw. simpl.
    rewrite String.eqb_eq. split; (intros [Heq|Hin]; [left; auto | right; exact Hin]).
Qed.

(** X18: [Window.getByLabel] returns a handle exactly when the host lists a
    window with that label: then the handle is a new object with that label
    and an empty table; otherwise the result is [null].  Either way nothing
    is sent to the host and the objects that existed are kept. *)
Theorem getByLabel_lookup (meta : Metadata) (lbl : string) (σ : World) :
  (lbl ∈ meta_windows meta →
   ∃ w, (getByLabel meta lbl σ).1 = Some w
        ∧ windows σ !! w = None
        ∧ windows (getByLabel meta lbl σ).2 !! w
          = Some {| label := lbl; listeners := ∅ |})
  ∧ (lbl ∉ meta_windows meta → (getByLabel meta lbl σ).1 = None)
  ∧ host (getByLabel meta lbl σ).2 = host σ
  ∧ (∀ w o, windows σ !! w = Some o →
            windows (getByLabel meta lbl σ).2 !! w = Some o).
Proof.
  unfold getByLabel, getAll.
  destruct (new_handles_spec (meta_windows meta) σ)
    as (Hobjs & _ & _ & Hkeep & Hhost & _).
  destruct (new_handles (meta_windows meta) σ) as [ws σ1]. cbn [fst snd] in *.
  pose proof (existsb_has_label σ1 lbl ws _ Hobjs) as Hiff.
  destruct (existsb (has_label σ1 lbl) ws).
  - rewrite new_Window_skip. cbn [fst snd].
    pose proof (fresh_window_unused σ1) as Hfresh.
    set (w := fresh (dom (windows σ1))) in *.
    split.
    { intros _. exists w. split; [reflexivity|]. split.
      - destruct (windows σ !! w) as [o|] eqn:Ho; [|reflexivity].
        rewrite (Hkeep w o Ho) in Hfresh. discriminate.
      - apply lookup_insert_eq. }
    split; [intros Hnot; exfalso; apply Hnot, Hiff; reflexivity|].
    split; [exact Hhost|].
    intros w' o Ho. unfold set_window. simpl.
    rewrite lookup_insert_ne; [apply Hkeep; exact Ho|].
    intros <-. rewrite (Hkeep _ _ Ho) in Hfresh. discriminate.
  - split; [intros Hin; apply Hiff in Hin; discriminate|].
    split; [reflexivity|]. split; [exact Hhost | exact Hkeep].
Qed.

Lemma getByLabel_lookup_witness :
  "about" ∈ meta_windows Cases.meta
  ∧ ("settings" ∉ meta_windows Cases.meta)
  ∧ (∃ w, (getByLabel Cases.meta "about" Scenario.two_listeners).1 = Some w
          ∧ windows Scenario.two_listeners !! w = None
          ∧ windows (getByLabel Cases.meta "about" Scenario.two_listeners).2 !! w
            = Some {| label := "about"; listeners := ∅ |})
  ∧ (getByLabel Cases.meta "settings" Scenario.two_listeners).1 = None.
Proof.
  assert (Hin : "about" ∈ meta_windows Cases.meta).
  { simpl. apply elem_of_cons. right. apply elem_of_cons. left. reflexivity. }
  assert (Hnot : "settings" ∉ meta_windows Cases.meta).
  { simpl. intros H. repeat (apply elem_of_cons in H as [H|H]; [discriminate|]).
    apply elem_of_nil in H. exact H. }
  split; [exact Hin|]. split; [exact Hnot|]. split.
  - exact (proj1 (getByLabel_lookup Cases.meta "about" Scenario.two_listeners) Hin).
  - exact (proj1 (proj2 (getByLabel_lookup Cases.meta "settings"
                           Scenario.two_listeners)) Hnot).
Defined.

Lemma focused_among_finds (reply : nat → Promise) (ws : list Ref) :
  ∀ (labels : list string) (i k : nat) (σ : World),
    Forall2 (λ w l, windows σ !! w = Some {| label := l; listeners := ∅ |}) ws labels →
    k < length ws →
    (∀ j, j < k → ∃ v, reply (i + j) = Fulfilled v ∧ truthy v = false) →
    (∃ v, reply (i + k) = Fulfilled v ∧ truthy v = true) →
    ∃ w σ', focused_among reply i ws σ = Some (FocusedIs w, σ')
            ∧ ws !! k = Some w
            ∧ windows σ' = windows σ
            ∧ host σ' = host σ ++ (is_focused_query <$> take (S k) labels).
Proof.
  induction ws as [|w ws IH]; intros labels i k σ Hobjs Hk Hbefore Hat;
    [simpl in Hk; lia|].
  apply Forall2_cons_inv_l in Hobjs as (lbl & labels' & Hw & Hobjs & ->).
  cbn [focused_among]. rewrite Hw. simpl.
  destruct k as [|k].
  - destruct Hat as (v & Hv & Htrue). rewrite Nat.add_0_r in Hv.
    rewrite Hv, Htrue. eexists _, _. split; [reflexivity|]. simpl. auto.
  - destruct (Hbefore 0) as (v & Hv & Hfalse); [lia|].
    rewrite Nat.add_0_r in Hv. rewrite Hv, Hfalse.
    destruct (IH labels' (S i) k
                (invoke "plugin:window|is_focused" (JsObj [("label", JsStr lbl)]) σ))
      as (w' & σ' & Hrun & Hlook & Hwin & Hhost).
    + exact Hobjs.
    + simpl in Hk. lia.
    + intros j Hj. replace (S i + j) with (i + S j) by lia. apply Hbefore. lia.
    + replace (S i + k) with (i + S k) by lia. exact Hat.
    + exists w', σ'. split; [exact Hrun|]. split; [exact Hlook|].
      split; [exact Hwin|]. rewrite Hhost. simpl.
      rewrite <- (assoc_L (++)). reflexivity.
Qed.

Lemma focused_among_none (reply : nat → Promise) (ws : list Ref) :
  ∀ (labels : list string) (i : nat) (σ : World),
    Forall2 (λ w l, windows σ !! w = Some {| label := l; listeners := ∅ |}) ws labels →
    (∀ j, j < length ws → ∃ v, reply (i + j) = Fulfilled v ∧ truthy v = false) →
    ∃ σ', focused_among reply i ws σ = Some (FocusedNone, σ')
          ∧ windows σ' = windows σ
          ∧ host σ' = host σ ++ (is_focused_query <$> labels).
Proof.
  induction ws as [|w ws IH]; intros labels i σ Hobjs Hall.
  - apply Forall2_nil_inv_l in Hobjs as ->. exists σ. simpl.
    rewrite app_nil_r. auto.
  - apply Forall2_cons_inv_l in Hobjs as (lbl & labels' & Hw & Hobjs & ->).
    cbn [focused_among]. rewrite Hw. simpl.
    destruct (Hall 0) as (v & Hv & Hfalse); [simpl; lia|].
    rewrite Nat.add_0_r in Hv. rewrite Hv, Hfalse.
    destruct (IH labels' (S i)
                (invoke "plugin:window|is_focused" (JsObj [("label", JsStr lbl)]) σ))
      as (σ' & Hrun & Hwin & Hhost).
    + exact Hobjs.
    + intros j Hj. replace (S i + j) with (i + S j) by lia. apply Hall. simpl. lia.
    + exists σ'. split; [exact Hrun|]. split; [exact Hwin|].
      rewrite Hhost. simpl. rewrite <- (assoc_L (++)). reflexivity.
Qed.

(** X19: [Window.getFocusedWindow] asks the windows the host lists one after
    the other, in the order of the list, and stops at the first one that
    answers with a truthy value: it resolves to a handle with the label of
    that window, and no window after it is asked. *)
Theorem getFocusedWindow_first_focused (meta : Metadata) (reply : nat → Promise)
    (k : nat) (σ : World) :
  k < length (meta_windows meta) →
  (∀ j, j < k → ∃ v, reply j = Fulfilled v ∧ truthy v = false) →
  (∃ v, reply k = Fulfilled v ∧ truthy v = true) →
  ∃ w σ', getFocusedWindow meta reply σ = Some (FocusedIs w, σ')
          ∧ label_at σ' w = meta_windows meta !! k
          ∧ host σ' = host σ ++ (is_focused_query <$> take (S k) (meta_windows meta)).
Proof.
  intros Hk Hbefore Hat. unfold getFocusedWindow, getAll.
  destruct (new_handles_spec (meta_windows meta) σ)
    as (Hobjs & _ & _ & _ & Hhost & _).
  destruct (new_handles (meta_windows meta) σ) as [ws σ1]. cbn [fst snd] in *.
  destruct (focused_among_finds reply ws (meta_windows meta) 0 k σ1 Hobjs)
    as (w & σ' & Hrun & Hlook & Hwin & Hsent); auto.
  { rewrite (Forall2_length _ _ _ Hobjs). exact Hk. }
  exists w, σ'. split; [exact Hrun|]. split; [|rewrite Hsent, Hhost; reflexivity].
  destruct (Forall2_lookup_l _ _ _ _ _ Hobjs Hlook) as (lbl & Hlbl & Hw).
  unfold label_at. rewrite Hwin, Hw, Hlbl. reflexivity.
Qed.

Lemma getFocusedWindow_first_focused_witness :
  1 < length (meta_windows Cases.meta)
  ∧ ∃ w σ', getFocusedWindow Cases.meta Cases.second_is_focused empty_world
            = Some (FocusedIs w, σ')
            ∧ label_at σ' w = Some "about"
            ∧ host σ' = [is_focused_query "main"; is_focused_query "about"].
Proof.
  assert (Hk : 1 < length (meta_windows Cases.meta)) by (simpl; lia).
  split; [exact Hk|].
  apply (getFocusedWindow_first_focused Cases.meta Cases.second_is_focused 1
           empty_world Hk).
  - intros j Hj. assert (j = 0) as -> by lia. exists (JsBool false). auto.
  - exists (JsBool true). auto.
Defined.

(** X20: when every window listed answers with a falsy value,
    [Window.getFocusedWindow] resolves to [null] after asking each of them
    once, in the order of the list. *)
Theorem getFocusedWindow_none_focused (meta : Metadata) (reply : nat → Promise)
    (σ : World) :
  (∀ j, j < length (meta_windows meta) →
        ∃ v, reply j = Fulfilled v ∧ truthy v = false) →
  ∃ σ', getFocusedWindow meta reply σ = Some (FocusedNone, σ')
        ∧ host σ' = host σ ++ (is_focused_query <$> meta_windows meta).
Proof.
  intros Hall. unfold getFocusedWindow, getAll.
  destruct (new_handles_spec (meta_windows meta) σ)
    as (Hobjs & _ & _ & _ & Hhost & _).
  destruct (new_handles (meta_windows meta) σ) as [ws σ1]. cbn [fst snd] in *.
  destruct (focused_among_none reply ws (meta_windows meta) 0 σ1 Hobjs)
    as (σ' & Hrun & _ & Hsent).
  { intros j Hj. apply Hall. rewrite <- (Forall2_length _ _ _ Hobjs). exact Hj. }
  exists σ'. split; [exact Hrun|]. rewrite Hsent, Hhost. reflexivity.
Qed.

Lemma getFocusedWindow_none_focused_witness :
  ∃ σ', getFocusedWindow Cases.meta (λ _, Fulfilled (JsBool false)) empty_world
        = Some (FocusedNone, σ')
        ∧ host σ' = [is_focused_query "main"; is_focused_query "about"].
Proof.
  apply (getFocusedWindow_none_focused Cases.meta (λ _, Fulfilled (JsBool false))
           empty_world).
  intros j _. exists (JsBool false). auto.
Defined.

(** ** Close negotiation, all outcomes *)

Lemma not_own_extension {A : Type} (l : list A) (x : A) : l ≠ l ++ [x].
Proof.
  intros Heq. apply (f_equal length) in Heq. rewrite length_app in Heq.
  simpl in Heq. lia.
Qed.

(** X21: one delivery of the close request sends at most one command, the
    close command for the label of the handle; it is sent exactly when the
    outcome of the handler is fulfilled and the handler has not called
    [preventDefault].  The callback throws exactly when the handler itself
    throws, before anything is sent, and the handles are left as they
    were. *)
Theorem deliver_decision (w : Ref) (this : WindowObj)
    (handler : Close.CloseRequestedEvent → Close.HandlerRun) (e : Envelope)
    (σ : World) :
  windows σ !! w = Some this →
  let run := handler (Close.new_CloseRequestedEvent e) in
  ∃ c, Close.deliver w handler e σ = Some c
       ∧ windows (world_of c) = windows σ
       ∧ (host (world_of c) = host σ
          ∨ host (world_of c) = host σ ++ [close_command (label this)])
       ∧ (host (world_of c) = host σ ++ [close_command (label this)]
          ↔ Close.outcome run = Close.Returns
            ∧ Close.CallPreventDefault ∉ Close.calls run)
       ∧ (∀ err, c = Throw err σ ↔ Close.outcome run = Close.Throws err).
Proof.
  intros Hw run. unfold Close.deliver. fold run.
  destruct (Close.outcome run) as [|err| |err] eqn:Hout.
  - destruct (decide (Close.CallPreventDefault ∈ Close.calls run)) as [Hin|Hnot].
    + rewrite (calls_with_preventDefault _ _ Hin). simpl.
      eexists. split; [reflexivity|]. simpl. split; [reflexivity|].
      split; [left; reflexivity|]. split.
      * split; [intros Hbad; destruct (not_own_extension _ _ Hbad)|].
        intros [_ Hnot]. contradiction.
      * intros err. split; discriminate.
    + rewrite (calls_without_preventDefault _ _ Hnot). simpl.
      unfold Close.close. rewrite Hw. simpl.
      eexists. split; [reflexivity|]. simpl. split; [reflexivity|].
      split; [right; reflexivity|]. split; [split; auto|].
      intros err. split; discriminate.
  - eexists. split; [reflexivity|]. simpl. split; [reflexivity|].
    split; [left; reflexivity|]. split.
    + split; [intros Hbad; destruct (not_own_extension _ _ Hbad)|].
      intros [Hbad _]. discriminate.
    + intros err'. split; discriminate.
  - eexists. split; [reflexivity|]. simpl. split; [reflexivity|].
    split; [left; reflexivity|]. split.
    + split; [intros Hbad; destruct (not_own_extension _ _ Hbad)|].
      intros [Hbad _]. discriminate.
    + intros err'. split; discriminate.
  - eexists. split; [reflexivity|]. simpl. split; [reflexivity|].
    split; [left; reflexivity|]. split.
    + split; [intros Hbad; destruct (not_own_extension _ _ Hbad)|].
      intros [Hbad _]. discriminate.
    + intros err'. split; [intros [= ->]; reflexivity | intros [= ->]; reflexivity].
Qed.

Lemma deliver_decision_witness :
  windows Scenario.existing.2 !! 0 = Some Cases.w1
  ∧ ∃ c, Close.deliver 0 Scenario.agreeing_handler Scenario.close_request
           Scenario.existing.2 = Some c
         ∧ host (world_of c) = [close_command "w1"].
Proof.
  assert (Hw : windows Scenario.existing.2 !! 0 = Some Cases.w1)
    by (vm_compute; reflexivity).
  split; [exact Hw|].
  destruct (deliver_decision 0 Cases.w1 Scenario.agreeing_handler
              Scenario.close_request _ Hw) as (c & Hc & _ & _ & Hiff & _).
  exists c. split; [exact Hc|]. apply Hiff. split; [reflexivity|].
  simpl. intros Hin. apply list_elem_of_singleton in Hin. discriminate.
Defined.

(** X22: on a close-requested event the flag only ever goes up: after
    [preventDefault], whatever is called on the event afterwards,
    [isPreventDefault] answers [true]; and no call changes the name, the
    label or the id the event was built with. *)
Theorem preventDefault_is_permanent (e : Envelope) (before after : list Close.EventCall) :
  let evt := foldl Close.do_call (Close.new_CloseRequestedEvent e) before in
  let evt' := foldl Close.do_call (Close.preventDefault evt) after in
  Close.isPreventDefault (Close.new_CloseRequestedEvent e) = false
  ∧ Close.isPreventDefault evt' = true
  ∧ Close.event evt' = env_event e
  ∧ Close.windowLabel evt' = env_windowLabel e
  ∧ Close.id evt' = env_id e.
Proof.
  intros evt evt'. split; [reflexivity|].
  split; [apply flag_stays_set; reflexivity|].
  assert (Hfields : ∀ cs x,
            Close.event (foldl Close.do_call x cs) = Close.event x
            ∧ Close.windowLabel (foldl Close.do_call x cs) = Close.windowLabel x
            ∧ Close.id (foldl Close.do_call x cs) = Close.id x).
  { induction cs as [|c cs IH]; intros x; simpl; [auto|].
    destruct (IH (Close.do_call x c)) as (H1 & H2 & H3).
    rewrite H1, H2, H3. destruct c; simpl; auto. }
  unfold evt', evt.
  destruct (Hfields after (Close.preventDefault
                             (foldl Close.do_call (Close.new_CloseRequestedEvent e) before)))
    as (H1 & H2 & H3).
  destruct (Hfields before (Close.new_CloseRequestedEvent e)) as (G1 & G2 & G3).
  rewrite H1, H2, H3. simpl. rewrite G1, G2, G3. auto.
Qed.

(** ** Composite listeners *)

Lemma listen_remote (w : Ref) (this : WindowObj) (ev : string) (h : Handler)
    (σ : World) :
  windows σ !! w = Some this →
  includes localTauriEvents ev = false →
  listen w ev h σ
  = Some (RemoteUnlisten ev h (label this),
          api_call (ApiListen ev h (label this)) σ).
Proof.
  intros Hw Hremote. unfold listen, _handleTauriEvent.
  rewrite Hremote, Hw. simpl. rewrite Hw. reflexivity.
Qed.

Lemma await_listen_remote (reply : Promise) (w : Ref) (this : WindowObj)
    (ev : string) (h : Handler) (σ : World) :
  windows σ !! w = Some this →
  includes localTauriEvents ev = false →
  await_listen reply w ev h σ
  = Some (match reply with
          | Fulfilled _ => Got (RemoteUnlisten ev h (label this))
          | Rejected e => Failed e
          | Pending => Waiting
          end,
          api_call (ApiListen ev h (label this)) σ).
Proof.
  intros Hw Hremote. unfold await_listen.
  rewrite (listen_remote w this ev h σ Hw Hremote). simpl.
  destruct reply; reflexivity.
Qed.

(** X23: with event names that are not local, [onFocusChanged] subscribes
    its focus callback with the remote event subsystem, scoped to the label
    of the handle, and awaits that subscription.  If it is rejected or never
    settles, so is [onFocusChanged], and the blur callback is never
    subscribed.  Otherwise the blur callback is subscribed next; if that
    subscription is rejected or never settles, so is [onFocusChanged], with
    the focus subscription left in place.  If both are fulfilled the function
    [onFocusChanged] resolves to unsubscribes both, focus first.  The
    handles and the host see nothing of it. *)
Theorem onFocusChanged_subscriptions (focus blur : string)
    (replyFocus replyBlur : Promise) (w : Ref) (this : WindowObj)
    (onFocus onBlur : Handler) (σ : World) :
  windows σ !! w = Some this →
  includes localTauriEvents focus = false →
  includes localTauriEvents blur = false →
  ∃ res σ1,
    onFocusChanged focus blur replyFocus replyBlur w onFocus onBlur σ = Some (res, σ1)
    ∧ windows σ1 = windows σ
    ∧ host σ1 = host σ
    ∧ (∀ e, replyFocus = Rejected e →
            res = SubscriptionRejected e
            ∧ eventApi σ1 = eventApi σ ++ [ApiListen focus onFocus (label this)])
    ∧ (replyFocus = Pending →
       res = SubscriptionPending
       ∧ eventApi σ1 = eventApi σ ++ [ApiListen focus onFocus (label this)])
    ∧ (∀ v, replyFocus = Fulfilled v →
            eventApi σ1 = eventApi σ ++ [ApiListen focus onFocus (label this);
                                         ApiListen blur onBlur (label this)]
            ∧ (∀ e, replyBlur = Rejected e → res = SubscriptionRejected e)
            ∧ (replyBlur = Pending → res = SubscriptionPending)
            ∧ (∀ v', replyBlur = Fulfilled v' →
                     ∃ us σ2,
                       res = Subscribed us
                       ∧ unlisten_all us σ1 = Some (Normal σ2)
                       ∧ eventApi σ2
                         = eventApi σ1 ++ [ApiUnlisten focus onFocus (label this);
                                           ApiUnlisten blur onBlur (label this)]
                       ∧ windows σ2 = windows σ
                       ∧ host σ2 = host σ)).
Proof.
  intros Hw Hfocus Hblur. unfold onFocusChanged.
  rewrite (await_listen_remote replyFocus w this focus onFocus σ Hw Hfocus).
  cbn [mbind option_bind].
  destruct replyFocus as [v|e|].
  - rewrite (await_listen_remote replyBlur w this blur onBlur
               (api_call (ApiListen focus onFocus (label this)) σ) Hw Hblur).
    cbn [mbind option_bind].
    destruct replyBlur as [v'|e'|]; eexists _, _; (split; [reflexivity|]);
      (split; [reflexivity|]); (split; [reflexivity|]);
      (split; [intros ? [=]|]); (split; [intros [=]|]); intros ? _;
      (split; [simpl; rewrite <- (assoc_L (++)); reflexivity|]).
    + split; [intros ? [=]|]. split; [intros [=]|]. intros ? _.
      eexists _, _. split; [reflexivity|]. split; [reflexivity|].
      split; [simpl; rewrite <- (assoc_L (++)); reflexivity|]. auto.
    + split; [intros ? [= ->]; reflexivity|]. split; [intros [=]|]. intros ? [=].
    + split; [intros ? [=]|]. split; [reflexivity|]. intros ? [=].
  - eexists _, _. split; [reflexivity|]. split; [reflexivity|].
    split; [reflexivity|]. split; [intros ? [= ->]; auto|].
    split; [intros [=]|]. intros ? [=].
  - eexists _, _. split; [reflexivity|]. split; [reflexivity|].
    split; [reflexivity|]. split; [intros ? [=]|].
    split; [auto|]. intros ? [=].
Qed.

Lemma onFocusChanged_subscriptions_witness :
  windows Scenario.existing.2 !! 0 = Some Cases.w1
  ∧ (∃ σ1 σ2,
       onFocusChanged "tauri://focus" "tauri://blur" (Fulfilled JsUndefined)
         (Fulfilled JsUndefined) 0 7 8 Scenario.existing.2
       = Some (Subscribed [RemoteUnlisten "tauri://focus" 7 "w1";
                           RemoteUnlisten "tauri://blur" 8 "w1"], σ1)
       ∧ eventApi σ1 = [ApiListen "tauri://focus" 7 "w1"; ApiListen "tauri://blur" 8 "w1"]
       ∧ unlisten_all [RemoteUnlisten "tauri://focus" 7 "w1";
                       RemoteUnlisten "tauri://blur" 8 "w1"] σ1 = Some (Normal σ2)
       ∧ eventApi σ2 = eventApi σ1 ++ [ApiUnlisten "tauri://focus" 7 "w1";
                                       ApiUnlisten "tauri://blur" 8 "w1"])
  ∧ (∃ σ1,
       onFocusChanged "tauri://focus" "tauri://blur" (Rejected (JsError "denied"))
         (Fulfilled JsUndefined) 0 7 8 Scenario.existing.2
       = Some (SubscriptionRejected (JsError "denied"), σ1)
       ∧ eventApi σ1 = [ApiListen "tauri://focus" 7 "w1"]).
Proof.
  assert (Hw : windows Scenario.existing.2 !! 0 = Some Cases.w1)
    by (vm_compute; reflexivity).
  split; [exact Hw|]. split.
  - destruct (onFocusChanged_subscriptions "tauri://focus" "tauri://blur"
                (Fulfilled JsUndefined) (Fulfilled JsUndefined) 0 Cases.w1 7 8
                Scenario.existing.2 Hw eq_refl eq_refl)
      as (res & σ1 & Hrun & _ & _ & _ & _ & Hboth).
    destruct (Hboth JsUndefined eq_refl) as (Hsubs & _ & _ & Hdone).
    destruct (Hdone JsUndefined eq_refl) as (us & σ2 & -> & Hun & Hapi & _).
    assert (Hus : us = [RemoteUnlisten "tauri://focus" 7 "w1";
                        RemoteUnlisten "tauri://blur" 8 "w1"]).
    { vm_compute in Hrun. injection Hrun as Hus _. symmetry. exact Hus. }
    subst us. exists σ1, σ2. auto.
  - destruct (onFocusChanged_subscriptions "tauri://focus" "tauri://blur"
                (Rejected (JsError "denied")) (Fulfilled JsUndefined) 0 Cases.w1 7 8
                Scenario.existing.2 Hw eq_refl eq_refl)
      as (res & σ1 & Hrun & _ & _ & Hrej & _ & _).
    destruct (Hrej (JsError "denied") eq_refl) as (-> & Hapi).
    exists σ1. auto.
Defined.

(** X24: likewise [onFileDropEvent] subscribes its three callbacks, drop,
    hover and cancel in this order, each once the subscription before it is
    fulfilled.  The first subscription that is rejected or never settles
    ends [onFileDropEvent] the same way: the callbacks after it are never
    subscribed and those before it stay subscribed.  If the three are
    fulfilled the function [onFileDropEvent] resolves to unsubscribes the
    three in the same order.  The handles and the host see nothing of it. *)
Theorem onFileDropEvent_subscriptions (drop hover cancel : string)
    (replyDrop replyHover replyCancel : Promise) (w : Ref) (this : WindowObj)
    (onDrop onHover onCancel : Handler) (σ : World) :
  windows σ !! w = Some this →
  includes localTauriEvents drop = false →
  includes localTauriEvents hover = false →
  includes localTauriEvents cancel = false →
  let subs := [ApiListen drop onDrop (label this);
               ApiListen hover onHover (label this);
               ApiListen cancel onCancel (label this)] in
  let outcome_of (reply : Promise) :=
    match reply with
    | Rejected e => SubscriptionRejected e
    | _ => SubscriptionPending
    end in
  ∃ res σ1,
    onFileDropEvent drop hover cancel replyDrop replyHover replyCancel w
      onDrop onHover onCancel σ = Some (res, σ1)
    ∧ windows σ1 = windows σ
    ∧ host σ1 = host σ
    ∧ ((∀ v, replyDrop ≠ Fulfilled v) →
       res = outcome_of replyDrop ∧ eventApi σ1 = eventApi σ ++ take 1 subs)
    ∧ (∀ v, replyDrop = Fulfilled v →
            ((∀ v', replyHover ≠ Fulfilled v') →
             res = outcome_of replyHover ∧ eventApi σ1 = eventApi σ ++ take 2 subs)
            ∧ (∀ v', replyHover = Fulfilled v' →
                     eventApi σ1 = eventApi σ ++ subs
                     ∧ ((∀ v'', replyCancel ≠ Fulfilled v'') →
                        res = outcome_of replyCancel)
                     ∧ (∀ v'', replyCancel = Fulfilled v'' →
                               ∃ us σ2,
                                 res = Subscribed us
                                 ∧ unlisten_all us σ1 = Some (Normal σ2)
                                 ∧ eventApi σ2
                                   = eventApi σ1
                                     ++ [ApiUnlisten drop onDrop (label this);
                                         ApiUnlisten hover onHover (label this);
                                         ApiUnlisten cancel onCancel (label this)]
                                 ∧ windows σ2 = windows σ
                                 ∧ host σ2 = host σ))).
Proof.
  intros Hw Hdrop Hhover Hcancel subs outcome_of. unfold onFileDropEvent.
  rewrite (await_listen_remote replyDrop w this drop onDrop σ Hw Hdrop).
  cbn [mbind option_bind].
  destruct replyDrop as [v|e|].
  - rewrite (await_listen_remote replyHover w this hover onHover
               (api_call (ApiListen drop onDrop (label this)) σ) Hw Hhover).
    cbn [mbind option_bind].
    destruct replyHover as [v'|e'|].
    + rewrite (await_listen_remote replyCancel w this cancel onCancel
                 (api_call (ApiListen hover onHover (label this))
                    (api_call (ApiListen drop onDrop (label this)) σ)) Hw Hcancel).
      cbn [mbind option_bind].
      destruct replyCancel as [v''|e''|]; eexists _, _; (split; [reflexivity|]);
        (split; [reflexivity|]); (split; [reflexivity|]);
        (split; [intros Hno; destruct (Hno v eq_refl)|]); intros ? _;
        (split; [intros Hno; destruct (Hno v' eq_refl)|]); intros ? _;
        (split; [simpl; rewrite <- !(assoc_L (++)); reflexivity|]).
      * split; [intros Hno; destruct (Hno v'' eq_refl)|]. intros ? _.
        eexists _, _. split; [reflexivity|]. split; [reflexivity|].
        split; [simpl; rewrite <- !(assoc_L (++)); reflexivity|]. auto.
      * split; [reflexivity|]. intros ? [=].
      * split; [reflexivity|]. intros ? [=].
    + eexists _, _. split; [reflexivity|]. split; [reflexivity|].
      split; [reflexivity|].
      split; [intros Hno; destruct (Hno v eq_refl)|]. intros ? _.
      split; [|intros ? [=]]. intros _.
      split; [reflexivity|]. simpl. rewrite <- (assoc_L (++)). reflexivity.
    + eexists _, _. split; [reflexivity|]. split; [reflexivity|].
      split; [reflexivity|].
      split; [intros Hno; destruct (Hno v eq_refl)|]. intros ? _.
      split; [|intros ? [=]]. intros _.
      split; [reflexivity|]. simpl. rewrite <- (assoc_L (++)). reflexivity.
  - eexists _, _. split; [reflexivity|]. split; [reflexivity|].
    split; [reflexivity|]. split; [auto|]. intros ? [=].
  - eexists _, _. split; [reflexivity|]. split; [reflexivity|].
    split; [reflexivity|]. split; [auto|]. intros ? [=].
Qed.

Lemma onFileDropEvent_subscriptions_witness :
  windows Scenario.existing.2 !! 0 = Some Cases.w1
  ∧ ∃ σ1,
      onFileDropEvent "tauri://file-drop" "tauri://file-drop-hover"
        "tauri://file-drop-cancelled" (Fulfilled JsUndefined)
        (Rejected (JsError "denied")) (Fulfilled JsUndefined) 0 1 2 3
        Scenario.existing.2
      = Some (SubscriptionRejected (JsError "denied"), σ1)
      ∧ eventApi σ1 = [ApiListen "tauri://file-drop" 1 "w1";
                       ApiListen "tauri://file-drop-hover" 2 "w1"].
Proof.
  assert (Hw : windows Scenario.existing.2 !! 0 = Some Cases.w1)
    by (vm_compute; reflexivity).
  split; [exact Hw|].
  destruct (onFileDropEvent_subscriptions "tauri://file-drop"
              "tauri://file-drop-hover" "tauri://file-drop-cancelled"
              (Fulfilled JsUndefined) (Rejected (JsError "denied"))
              (Fulfilled JsUndefined) 0 Cases.w1 1 2 3 Scenario.existing.2 Hw
              eq_refl eq_refl eq_refl)
    as (res & σ1 & Hrun & _ & _ & _ & Hdrop).
  destruct (Hdrop JsUndefined eq_refl) as (Hhover & _).
  destruct Hhover as (-> & Hapi); [intros v'; discriminate|].
  exists σ1. auto.
Defined.

(** ** Values received from the host *)

Lemma member_not_nullish (k : string) (o : JsVal) :
  ¬ nullish o → member k o = Some (get k o).
Proof.
  intros Hnot. destruct o; try reflexivity; exfalso; apply Hnot;
    [left | right]; reflexivity.
Qed.

Lemma member_nullish (k : string) (o : JsVal) : nullish o → member k o = None.
Proof. intros [-> | ->]; reflexivity. Qed.

Lemma mapPhysicalSize_Some (m s : JsVal) :
  mapPhysicalSize m = Some s →
  s = JsObj [("type", JsStr "Physical"); ("width", get "width" m);
             ("height", get "height" m)].
Proof.
  unfold mapPhysicalSize. destruct m; simpl; try discriminate; intros [= <-];
    reflexivity.
Qed.

Lemma mapPhysicalPosition_Some (m p : JsVal) :
  mapPhysicalPosition m = Some p →
  p = JsObj [("type", JsStr "Physical"); ("x", get "x" m); ("y", get "y" m)].
Proof.
  unfold mapPhysicalPosition. destruct m; simpl; try discriminate; intros [= <-];
    reflexivity.
Qed.

(** X25: a size or a position built from an answer of the host (as by
    [innerSize], [outerPosition], the monitor functions or the resize and
    move listeners) passes the guard of the setters: [setSize] and
    [setPosition] send it back tagged Physical with the components the host
    gave. *)
Theorem host_geometry_is_accepted (w : Ref) (this : WindowObj) (m m' s p : JsVal)
    (σ : World) :
  windows σ !! w = Some this →
  mapPhysicalSize m = Some s →
  mapPhysicalPosition m' = Some p →
  setSize w s σ
  = Some (Pending,
          invoke "plugin:window|set_size"
            (JsObj [("label", JsStr (label this));
                    ("value", JsObj [("type", JsStr "Physical");
                                     ("data", JsObj [("width", get "width" m);
                                                     ("height", get "height" m)])])])
            σ)
  ∧ setPosition w p σ
    = Some (Pending,
            invoke "plugin:window|set_position"
              (JsObj [("label", JsStr (label this));
                      ("value", JsObj [("type", JsStr "Physical");
                                       ("data", JsObj [("x", get "x" m');
                                                       ("y", get "y" m')])])])
              σ).
Proof.
  intros Hw Hs Hp.
  rewrite (mapPhysicalSize_Some _ _ Hs), (mapPhysicalPosition_Some _ _ Hp).
  unfold setSize, setPosition. rewrite Hw. auto.
Qed.

Lemma host_geometry_is_accepted_witness :
  let s := JsObj [("type", JsStr "Physical"); ("width", JsNum 800);
                  ("height", JsNum 600)] in
  let p := JsObj [("type", JsStr "Physical"); ("x", JsNum 0); ("y", JsNum 0)] in
  windows Scenario.existing.2 !! 0 = Some Cases.w1
  ∧ mapPhysicalSize Cases.host_size = Some s
  ∧ mapPhysicalPosition (get "position" Cases.host_monitor) = Some p
  ∧ host <$> (snd <$> setSize 0 s Scenario.existing.2)
    = Some [{| cmd := "plugin:window|set_size";
               args := JsObj [("label", JsStr "w1");
                              ("value", JsObj [("type", JsStr "Physical");
                                               ("data", JsObj [("width", JsNum 800);
                                                               ("height", JsNum 600)])])] |}].
Proof.
  intros s p.
  assert (Hw : windows Scenario.existing.2 !! 0 = Some Cases.w1)
    by (vm_compute; reflexivity).
  assert (Hs : mapPhysicalSize Cases.host_size = Some s) by reflexivity.
  assert (Hp : mapPhysicalPosition (get "position" Cases.host_monitor) = Some p)
    by reflexivity.
  split; [exact Hw|]. split; [exact Hs|]. split; [exact Hp|].
  rewrite (proj1 (host_geometry_is_accepted 0 Cases.w1 _ _ s p _ Hw Hs Hp)).
  reflexivity.
Defined.

Lemma mapMonitor_not_null (m : JsVal) :
  m ≠ JsNull →
  mapMonitor m
  = (name ← member "name" m;
     scaleFactor ← member "scaleFactor" m;
     position ← member "position" m ≫= mapPhysicalPosition;
     size ← member "size" m ≫= mapPhysicalSize;
     Some (JsObj [("name", name); ("scaleFactor", scaleFactor);
                  ("position", position); ("size", size)])).
Proof. intros Hne. destruct m; try reflexivity. contradiction. Qed.

(** X26: [mapMonitor] keeps [null] and fails with a [TypeError] on
    [undefined] and on a monitor without a position or without a size.
    Otherwise the monitor it returns has the name and the scale factor of the
    answer, and a position and a size tagged Physical with the components of
    the answer. *)
Theorem mapMonitor_result (m : JsVal) :
  mapMonitor JsNull = Some JsNull
  ∧ mapMonitor JsUndefined = None
  ∧ (¬ nullish m →
     nullish (get "position" m) ∨ nullish (get "size" m) →
     mapMonitor m = None)
  ∧ (¬ nullish m →
     ¬ nullish (get "position" m) →
     ¬ nullish (get "size" m) →
     mapMonitor m
     = Some (JsObj [("name", get "name" m);
                    ("scaleFactor", get "scaleFactor" m);
                    ("position",
                     JsObj [("type", JsStr "Physical");
                            ("x", get "x" (get "position" m));
                            ("y", get "y" (get "position" m))]);
                    ("size",
                     JsObj [("type", JsStr "Physical");
                            ("width", get "width" (get "size" m));
                            ("height", get "height" (get "size" m))])])).
Proof.
  split; [reflexivity|]. split; [reflexivity|].
  assert (Hne : ¬ nullish m → m ≠ JsNull).
  { intros Hnot ->. apply Hnot. right. reflexivity. }
  split.
  - intros Hm Hmissing. rewrite (mapMonitor_not_null m (Hne Hm)).
    rewrite !(member_not_nullish _ m Hm). simpl.
    unfold mapPhysicalPosition, mapPhysicalSize.
    destruct Hmissing as [[Hpos | Hpos] | [Hsize | Hsize]].
    + rewrite Hpos. reflexivity.
    + rewrite Hpos. reflexivity.
    + rewrite Hsize. destruct (get "position" m); reflexivity.
    + rewrite Hsize. destruct (get "position" m); reflexivity.
  - intros Hm Hpos Hsize. rewrite (mapMonitor_not_null m (Hne Hm)).
    rewrite !(member_not_nullish _ m Hm). simpl.
    unfold mapPhysicalPosition, mapPhysicalSize.
    rewrite !(member_not_nullish _ _ Hpos), !(member_not_nullish _ _ Hsize).
    reflexivity.
Qed.

Lemma mapMonitor_result_witness :
  ¬ nullish Cases.host_monitor
  ∧ ¬ nullish (get "position" Cases.host_monitor)
  ∧ ¬ nullish (get "size" Cases.host_monitor)
  ∧ mapMonitor Cases.host_monitor
    = Some (JsObj [("name", JsStr "eDP-1"); ("scaleFactor", JsNum 2);
                   ("position", JsObj [("type", JsStr "Physical");
                                       ("x", JsNum 0); ("y", JsNum 0)]);
                   ("size", JsObj [("type", JsStr "Physical");
                                   ("width", JsNum 2560); ("height", JsNum 1440)])]).
Proof.
  assert (H1 : ¬ nullish Cases.host_monitor) by (intros [H|H]; discriminate).
  assert (H2 : ¬ nullish (get "position" Cases.host_monitor))
    by (intros [H|H]; discriminate).
  assert (H3 : ¬ nullish (get "size" Cases.host_monitor))
    by (intros [H|H]; discriminate).
  split; [exact H1|]. split; [exact H2|]. split; [exact H3|].
  exact (proj2 (proj2 (proj2 (mapMonitor_result Cases.host_monitor))) H1 H2 H3).
Defined.

(** ** The creation bootstrap, the cases that hold *)

(** X27: when the creation command is rejected and the handlers of the
    error event return normally, leaving their list alone, the chain of the
    constructor returns fulfilled having fired only the error event: the
    handlers of the created event are not called, and the handlers of the
    error event are called in registration order, each with an envelope
    carrying the label of the handle and the reason of the rejection as its
    payload. *)
Theorem creation_rejected_delivers_error
    (code : Handler → Envelope → World → Completion) (fuel : nat) (w : Ref)
    (e : JsVal) (lbl : string) (σ : World) :
  label_at σ w = Some lbl →
  Forall (leaves_list code w "tauri://error") (handlers_at σ w "tauri://error") →
  length (handlers_at σ w "tauri://error") ≤ fuel →
  ∃ fired σ',
    creation_settled code fuel w (Rejected e) σ
    = Some (Fulfilled JsUndefined, fired, σ')
    ∧ fired_event <$> fired = ["tauri://error"]
    ∧ concat (fired_invoked <$> fired)
      = call_of "tauri://error" lbl e <$> handlers_at σ w "tauri://error".
Proof.
  intros Hlbl Hquiet Hfuel.
  destruct (dispatch_untouched code w "tauri://error" e lbl _ Hquiet
              fuel 0 σ Hlbl eq_refl) as (r & Hr & Hs & Hinv & _); [lia|].
  rewrite drop_0 in Hinv.
  unfold creation_settled, then_created, catch_error, emit.
  cbn [mbind option_bind].
  change (includes localTauriEvents "tauri://error") with true.
  cbn match. rewrite Hr. simpl. rewrite Hs. simpl.
  eexists _, _. split; [reflexivity|]. simpl. rewrite app_nil_r. auto.
Qed.

Lemma creation_rejected_delivers_error_witness :
  let σ := Scenario.after_listen 0 "tauri://error" 4
             (Scenario.after_listen 0 "tauri://created" 1 Scenario.creating.2) in
  label_at σ 0 = Some "w1"
  ∧ handlers_at σ 0 "tauri://error" = [4]
  ∧ ∃ fired σ',
      creation_settled Scenario.thrower 1 0 (Rejected (JsError "denied")) σ
      = Some (Fulfilled JsUndefined, fired, σ')
      ∧ fired_event <$> fired = ["tauri://error"]
      ∧ concat (fired_invoked <$> fired)
        = [call_of "tauri://error" "w1" (JsError "denied") 4].
Proof.
  intros σ.
  assert (H1 : label_at σ 0 = Some "w1") by (vm_compute; reflexivity).
  assert (H2 : handlers_at σ 0 "tauri://error" = [4]) by (vm_compute; reflexivity).
  split; [exact H1|]. split; [exact H2|].
  destruct (creation_rejected_delivers_error Scenario.thrower 1 0 (JsError "denied")
              "w1" σ H1) as (fired & σ' & Hrun & Hev & Hinv).
  - rewrite H2. constructor; [|constructor].
    intros env σ0. exists σ0. auto.
  - rewrite H2. simpl. lia.
  - exists fired, σ'. rewrite H2 in Hinv. auto.
Defined.

Lemma creation_fulfilled_fires_created_only_witness :
  label_at Scenario.two_listeners 0 = Some "w1"
  ∧ length (handlers_at Scenario.two_listeners 0 "tauri://created") ≤ 2
  ∧ ∃ fired σ',
      creation_settled Scenario.quiet 2 0 (Fulfilled JsNull) Scenario.two_listeners
      = Some (Fulfilled JsUndefined, fired, σ')
      ∧ fired_event <$> fired = ["tauri://created"]
      ∧ concat (fired_invoked <$> fired)
        = call_of "tauri://created" "w1" JsUndefined
            <$> handlers_at Scenario.two_listeners 0 "tauri://created".
Proof.
  assert (H1 : label_at Scenario.two_listeners 0 = Some "w1")
    by (vm_compute; reflexivity).
  assert (H2 : length (handlers_at Scenario.two_listeners 0 "tauri://created") ≤ 2)
    by (vm_compute; lia).
  split; [exact H1|]. split; [exact H2|].
  apply (creation_fulfilled_fires_created_only Scenario.quiet 2 0 JsNull "w1"
           Scenario.two_listeners H1); [|exact H2].
  apply Forall_forall. intros h _. apply quiet_leaves_list.
Defined.
